(** * A* pathfinding of the dwarf-fortress simulation

    A shallow embedding of [src/ai/pathfinding_simple.py] (class
    [AStarPathfinder]) together with the part of
    [src/world/world_state_simple.py] it reads ([Tile], [WorldState]).

    Python [float] is IEEE-754 binary64, which is what Rocq's primitive
    [float] is, so costs are computed with the same roundings as in the
    program.  Python [int] is [Z]. *)

From Stdlib Require Import PrimFloat.
From Stdlib Require FloatOps SpecFloat.
From Stdlib Require Import ZArith Lia.
From stdpp Require Import gmap list.

Set Warnings "-inexact-float".
Local Open Scope Z_scope.

(** ** Numbers *)

(** [float(n)] for a Python int: the nearest binary64 value, ties to even.
    (Python raises OverflowError from 2^1024 on; the model yields infinity
    there, a range no coordinate or water level of a world reaches.) *)
Definition float_of_Z (n : Z) : PrimFloat.float :=
  FloatOps.SF2Prim (SpecFloat.binary_normalize 53 1024 n 0 false).

(** A grid coordinate [(x, y, z)]. *)
Abbreviation Coord := (Z * Z * Z)%type.

(** ** core/config.py: Constants *)

Module Constants.
Definition TILE_EMPTY : Z := 0.
Definition TILE_STONE : Z := 1.
Definition TILE_SOIL : Z := 2.
Definition TILE_WATER : Z := 3.
Definition TILE_MAGMA : Z := 4.
End Constants.

(** ** world_state_simple.py: Tile *)

Module Tile.

(** The two fields of the dataclass the pathfinder reads; the others
    (hardness, stability, temperature, minerals, construction and
    designation flags) take no part in any method below. *)
Record t := mk { material : Z; water_level : Z }.

(** [Tile()]: every field at its default. *)
Definition default : t := {| material := Constants.TILE_EMPTY; water_level := 0 |}.

Definition is_passable (self : t) : bool :=
  bool_decide (material self = Constants.TILE_EMPTY) || bool_decide (water_level self < 7).

Definition get_movement_cost (self : t) : PrimFloat.float :=
  if negb (is_passable self) then PrimFloat.infinity
  else
    let cost := 1.0%float in
    let cost :=
      if bool_decide (water_level self > 0)
      then (cost + float_of_Z (water_level self) * 0.5)%float else cost in
    let cost :=
      if bool_decide (material self = Constants.TILE_SOIL)
      then (cost + 0.2)%float else cost in
    cost.

End Tile.

(** ** world_state_simple.py: WorldState *)

Module WorldState.

(** [tiles] is the nested list [tiles[x][y][z]]. *)
Record t := mk { size : Z; z_levels : Z; tiles : list (list (list Tile.t)) }.

(** [WorldState(size, z_levels)]: a cube of default tiles. *)
Definition __init__ (size z_levels : Z) : t :=
  {| size := size; z_levels := z_levels;
     tiles := replicate (Z.to_nat size)
                (replicate (Z.to_nat size)
                   (replicate (Z.to_nat z_levels) Tile.default)) |}.

Definition is_valid_coordinate (self : t) (x y z : Z) : bool :=
  bool_decide (0 <= x < size self) &&
  bool_decide (0 <= y < size self) &&
  bool_decide (0 <= z < z_levels self).

(** [self.tiles[x][y][z]] is read once the bounds are checked.  The
    constructor and [set_tile] keep the three dimensions of [tiles] equal to
    [size], [size] and [z_levels], so the lookup finds a tile; from a list
    that is too short the model reads [Tile()]. *)
Definition get_tile (self : t) (x y z : Z) : Tile.t :=
  if negb (is_valid_coordinate self x y z) then Tile.default
  else
    default Tile.default
      (row ← tiles self !! Z.to_nat x; col ← row !! Z.to_nat y; col !! Z.to_nat z).

Definition set_tile (self : t) (x y z : Z) (tile : Tile.t) : t :=
  if is_valid_coordinate self x y z then
    {| size := size self; z_levels := z_levels self;
       tiles := alter (alter (fun col => <[Z.to_nat z := tile]> col) (Z.to_nat y))
                      (Z.to_nat x) (tiles self) |}
  else self.

End WorldState.

(** ** heapq (CPython): a binary min-heap kept in a list

    The heap holds references; [lt a b] is Python's [a < b] on the referenced
    objects, read at the time of the comparison. *)

Module heapq.
Section heap.
Context {A : Type} (lt : A -> A -> bool).

(** The loop of [_siftdown]: [pos] strictly decreases, so [pos] itself
    bounds the number of turns ([n] is at least [pos]). *)
Fixpoint _siftdown_loop (n : nat) (heap : list A) (newitem : A)
    (startpos pos : nat) : list A :=
  match n with
  | O => <[pos := newitem]> heap
  | S n' =>
      if bool_decide (startpos < pos)%nat then
        let parentpos := ((pos - 1) / 2)%nat in
        match heap !! parentpos with
        | Some parent =>
            if lt newitem parent
            then _siftdown_loop n' (<[pos := parent]> heap) newitem startpos parentpos
            else <[pos := newitem]> heap
        | None => <[pos := newitem]> heap
        end
      else <[pos := newitem]> heap
  end.

Definition _siftdown (heap : list A) (startpos pos : nat) : list A :=
  match heap !! pos with
  | Some newitem => _siftdown_loop pos heap newitem startpos pos
  | None => heap
  end.

(** The loop of [_siftup]: bubbles the smaller child up until a leaf is
    reached and returns the heap with the position of the leaf; [pos]
    strictly increases and stays below [endpos]. *)
Fixpoint _siftup_loop (n : nat) (heap : list A) (endpos pos : nat)
    : list A * nat :=
  match n with
  | O => (heap, pos)
  | S n' =>
      let childpos := (2 * pos + 1)%nat in
      if bool_decide (childpos < endpos)%nat then
        let rightpos := (childpos + 1)%nat in
        let childpos :=
          match heap !! childpos, heap !! rightpos with
          | Some l, Some r =>
              if bool_decide (rightpos < endpos)%nat && negb (lt l r)
              then rightpos else childpos
          | _, _ => childpos
          end in
        match heap !! childpos with
        | Some c => _siftup_loop n' (<[pos := c]> heap) endpos childpos
        | None => (heap, pos)
        end
      else (heap, pos)
  end.

Definition _siftup (heap : list A) (pos : nat) : list A :=
  match heap !! pos with
  | Some newitem =>
      let '(heap, leaf) := _siftup_loop (length heap) heap (length heap) pos in
      _siftdown (<[leaf := newitem]> heap) pos leaf
  | None => heap
  end.

Definition heappush (heap : list A) (item : A) : list A :=
  let heap := heap ++ [item] in
  _siftdown heap 0 (length heap - 1).

(** [heappop] of a non-empty heap: the item returned and the heap left.
    [None] stands for the IndexError of an empty heap. *)
Definition heappop (heap : list A) : option (A * list A) :=
  match last heap with
  | None => None
  | Some lastelt =>
      let heap := removelast heap in
      match heap with
      | returnitem :: _ => Some (returnitem, _siftup (<[0%nat := lastelt]> heap) 0)
      | [] => Some (lastelt, heap)
      end
  end.

End heap.
End heapq.

(** ** How a call ends *)

Inductive exn := StopIteration.

(** A call returns a value, raises, or never comes back. *)
Inductive result (A : Type) :=
| Returns (a : A)
| Raises (e : exn)
| Diverges.
Arguments Returns {A} a.
Arguments Raises {A} e.
Arguments Diverges {A}.

(** ** pathfinding_simple.py: PathNode *)

(** [parent] is a reference to another node.  Within one search every node
    is created at line 92 under a position that [node_map] does not hold
    yet and is stored there at line 100, and no entry of [node_map] is ever
    replaced: a node object is identified by the key that holds it, and a
    reference to a node is that key.  In-place updates of a node (lines
    88-90) are updates of the entry, seen through every reference. *)
Record PathNode := mkPathNode {
  position : Coord;
  g_cost : float;
  h_cost : float;
  f_cost : float;
  parent : option Coord
}.

#[export] Instance PathNode_inhabited : Inhabited PathNode :=
  populate (mkPathNode (0, 0, 0) 0 0 0 None).

(** [PathNode.__lt__], on two references into the store [nodes]. *)
Definition __lt__ (nodes : gmap Coord PathNode) (self other : Coord) : bool :=
  (f_cost (nodes !!! self) <? f_cost (nodes !!! other))%float.

(** ** A Python dict that remembers insertion order *)

Module dict.
Section dict.
Context {K V : Type} `{EqDecision K}.

Definition t := list (K * V).

(** [d[key]], [None] when [key in d] is false. *)
Fixpoint get (d : t) (key : K) : option V :=
  match d with
  | [] => None
  | (k, v) :: d' => if decide (k = key) then Some v else get d' key
  end.

(** [d[key] = value]: a key already present keeps its place. *)
Fixpoint set (d : t) (key : K) (value : V) : t :=
  match d with
  | [] => [(key, value)]
  | (k, v) :: d' =>
      if decide (k = key) then (k, value) :: d' else (k, v) :: set d' key value
  end.

(** [del d[key]] *)
Fixpoint del (d : t) (key : K) : t :=
  match d with
  | [] => []
  | (k, v) :: d' => if decide (k = key) then d' else (k, v) :: del d' key
  end.

(** [next(iter(d))]: the oldest key, [None] for StopIteration. *)
Definition first_key (d : t) : option K := fst <$> head d.

End dict.
Arguments t : clear implicits.
End dict.

(** ** pathfinding_simple.py: AStarPathfinder *)

Abbreviation Path := (list Coord).

Record AStarPathfinder := mkAStarPathfinder {
  world_state : WorldState.t;
  max_iterations : Z;
  path_cache : dict.t (Coord * Coord) Path;
  cache_max_size : Z
}.

Definition __init__ (world_state : WorldState.t) (max_iterations : Z) : AStarPathfinder :=
  {| world_state := world_state;
     max_iterations := max_iterations;
     path_cache := [];
     cache_max_size := 1000 |}.

Section terrain.
Variable w : WorldState.t.

Definition _is_valid_position (position : Coord) : bool :=
  let '(x, y, z) := position in WorldState.is_valid_coordinate w x y z.

Definition _is_passable (position : Coord) : bool :=
  let '(x, y, z) := position in Tile.is_passable (WorldState.get_tile w x y z).

Definition _can_move_vertically (from_pos to_pos : Coord) : bool :=
  let '(x, y, z) := to_pos in
  let to_tile := WorldState.get_tile w x y z in
  if negb (Tile.is_passable to_tile) then false else true.

Definition _get_neighbors (position : Coord) : list Coord :=
  let '(x, y, z) := position in
  let neighbors :=
    filter (fun new_pos => _is_valid_position new_pos = true)
      ((fun '(dx, dy) => (x + dx, y + dy, z)) <$>
         [(-1, 0); (1, 0); (0, -1); (0, 1); (-1, -1); (-1, 1); (1, -1); (1, 1)]) in
  let neighbors :=
    if bool_decide (z < WorldState.z_levels w - 1) then
      let up_pos := (x, y, z + 1) in
      if _can_move_vertically position up_pos then neighbors ++ [up_pos] else neighbors
    else neighbors in
  let neighbors :=
    if bool_decide (z > 0) then
      let down_pos := (x, y, z - 1) in
      if _can_move_vertically position down_pos then neighbors ++ [down_pos] else neighbors
    else neighbors in
  neighbors.

Definition _get_movement_cost (from_pos to_pos : Coord) : float :=
  let '(x0, y0, z0) := from_pos in
  let '(x1, y1, z1) := to_pos in
  let to_tile := WorldState.get_tile w x1 y1 z1 in
  let cost := Tile.get_movement_cost to_tile in
  let dx := Z.abs (x1 - x0) in
  let dy := Z.abs (y1 - y0) in
  let dz := Z.abs (z1 - z0) in
  let cost := if bool_decide (dx + dy > 1) then (cost * 1.414)%float else cost in
  let cost := if bool_decide (dz > 0) then (cost * 2.0)%float else cost in
  cost.

End terrain.

Definition _heuristic (pos1 pos2 : Coord) : float :=
  let '(x1, y1, z1) := pos1 in
  let '(x2, y2, z2) := pos2 in
  let dx := Z.abs (x1 - x2) in
  let dy := Z.abs (y1 - y2) in
  let dz := Z.abs (z1 - z2) in
  sqrt (float_of_Z (dx * dx + dy * dy + dz * dz)).

(** [_reconstruct_path]: the loop [while current is not None] ends when a
    node without parent is reached; [Diverges] is the loop still running
    after [n] turns. *)
Fixpoint _reconstruct_loop (n : nat) (nodes : gmap Coord PathNode)
    (current : option Coord) (path : Path) : result Path :=
  match current with
  | None => Returns path
  | Some c =>
      match n with
      | O => Diverges
      | S n' =>
          _reconstruct_loop n' nodes (parent (nodes !!! c)) (path ++ [position (nodes !!! c)])
      end
  end.

(** A walk along parents that comes back passes no node twice, so as many
    turns as there are nodes tell a walk that ends from one that does not. *)
Definition _reconstruct_path (nodes : gmap Coord PathNode) (goal_node : Coord) : result Path :=
  match _reconstruct_loop (size nodes) nodes (Some goal_node) [] with
  | Returns path => Returns (reverse path)
  | Raises e => Raises e
  | Diverges => Diverges
  end.

(** *** The search of [find_path] (lines 45-104) *)

(** The local variables of the search. *)
Record Search := mkSearch {
  open_set : list Coord;
  closed_set : gset Coord;
  node_map : gmap Coord PathNode;
  iterations : Z
}.

Section search.
Variable w : WorldState.t.
Variable goal : Coord.

(** One turn of [for neighbor_pos in ...] (lines 79-101) for the node
    [current], on the store and the heap. *)
Definition visit_neighbor (closed : gset Coord) (current : Coord)
    (acc : gmap Coord PathNode * list Coord) (neighbor_pos : Coord)
    : gmap Coord PathNode * list Coord :=
  let '(nodes, heap) := acc in
  if bool_decide (neighbor_pos ∈ closed) || negb (_is_passable w neighbor_pos) then acc
  else
    let movement_cost := _get_movement_cost w (position (nodes !!! current)) neighbor_pos in
    let tentative_g_cost := (g_cost (nodes !!! current) + movement_cost)%float in
    match nodes !! neighbor_pos with
    | Some neighbor_node =>
        if (tentative_g_cost <? g_cost neighbor_node)%float then
          (<[neighbor_pos :=
               {| position := position neighbor_node;
                  g_cost := tentative_g_cost;
                  h_cost := h_cost neighbor_node;
                  f_cost := (tentative_g_cost + h_cost neighbor_node)%float;
                  parent := Some current |}]> nodes,
           heap)
        else acc
    | None =>
        let h := _heuristic neighbor_pos goal in
        let neighbor_node :=
          {| position := neighbor_pos;
             g_cost := tentative_g_cost;
             h_cost := h;
             f_cost := (tentative_g_cost + h)%float;
             parent := Some current |} in
        let nodes := <[neighbor_pos := neighbor_node]> nodes in
        (nodes, heapq.heappush (__lt__ nodes) heap neighbor_pos)
    end.

(** What one turn of the [while] loop does. *)
Inductive Turn :=
| Skipped (s : Search)                      (* line 67: [continue] *)
| Reached (s : Search) (path : result Path) (* line 75: [return path] *)
| Expanded (s : Search).                    (* the neighbours were visited *)

(** The body of the [while] loop (lines 63-101), once [heappop] has given
    [current_node] and left [rest] in the open set. *)
Definition loop_body (s : Search) (current_node : Coord) (rest : list Coord) : Turn :=
  let iterations := iterations s + 1 in
  let pos := position (node_map s !!! current_node) in
  if bool_decide (pos ∈ closed_set s) then
    Skipped (mkSearch rest (closed_set s) (node_map s) iterations)
  else
    let closed_set := closed_set s ∪ {[pos]} in
    if bool_decide (pos = goal) then
      Reached (mkSearch rest closed_set (node_map s) iterations)
              (_reconstruct_path (node_map s) current_node)
    else
      let '(nodes, open_set) :=
        foldl (visit_neighbor closed_set current_node)
              (node_map s, rest) (_get_neighbors w pos) in
      Expanded (mkSearch open_set closed_set nodes iterations).

(** [while open_set and iterations < self.max_iterations], with [n] the
    number of turns the counter still allows,
    [max_iterations - iterations]; [heappop] gives nothing exactly when
    the open set is empty.  The loop left without [return] falls through
    to line 104, [return None]. *)
Fixpoint search_loop (n : nat) (s : Search) : Search * result (option Path) :=
  match n with
  | O => (s, Returns None)
  | S n' =>
      match heapq.heappop (__lt__ (node_map s)) (open_set s) with
      | None => (s, Returns None)
      | Some (current_node, rest) =>
          match loop_body s current_node rest with
          | Skipped s' => search_loop n' s'
          | Reached s' (Returns path) => (s', Returns (Some path))
          | Reached s' (Raises e) => (s', Raises e)
          | Reached s' Diverges => (s', Diverges)
          | Expanded s' => search_loop n' s'
          end
      end
  end.

(** Lines 46-60. *)
Definition search_init (start : Coord) : Search :=
  let h := _heuristic start goal in
  let start_node :=
    {| position := start; g_cost := 0; h_cost := h;
       f_cost := (0 + h)%float; parent := None |} in
  let nodes : gmap Coord PathNode := {[start := start_node]} in
  {| open_set := heapq.heappush (__lt__ nodes) [] start;
     closed_set := ∅;
     node_map := nodes;
     iterations := 0 |}.

End search.

(** Lines 45-104: the search from [start] to [goal], run to its end. *)
Definition search (w : WorldState.t) (max_iterations : Z) (start goal : Coord)
    : Search * result (option Path) :=
  search_loop w goal (Z.to_nat max_iterations) (search_init goal start).

(** [_cache_path] (lines 198-205). *)
Definition _cache_path (self : AStarPathfinder) (cache_key : Coord * Coord) (path : Path)
    : result AStarPathfinder :=
  let store cache :=
    {| world_state := world_state self;
       max_iterations := max_iterations self;
       path_cache := dict.set cache cache_key path;
       cache_max_size := cache_max_size self |} in
  if bool_decide (Z.of_nat (length (path_cache self)) >= cache_max_size self) then
    match dict.first_key (path_cache self) with
    | None => Raises StopIteration
    | Some oldest_key => Returns (store (dict.del (path_cache self) oldest_key))
    end
  else Returns (store (path_cache self)).

(** [find_path] (lines 31-104): what the call gives and the pathfinder it
    leaves.  [run] is the search of lines 45-104, a parameter here so that
    the paths through [find_path] that do not enter it can be told apart. *)
Definition find_path_with
    (run : WorldState.t -> Z -> Coord -> Coord -> Search * result (option Path))
    (self : AStarPathfinder) (start goal : Coord)
    : result (option Path) * AStarPathfinder :=
  let cache_key := (start, goal) in
  match dict.get (path_cache self) cache_key with
  | Some path => (Returns (Some path), self)
  | None =>
      if negb (_is_valid_position (world_state self) start)
         || negb (_is_valid_position (world_state self) goal)
      then (Returns None, self)
      else if negb (_is_passable (world_state self) start)
              || negb (_is_passable (world_state self) goal)
      then (Returns None, self)
      else
        match (run (world_state self) (max_iterations self) start goal).2 with
        | Returns (Some path) =>
            match _cache_path self cache_key path with
            | Returns self' => (Returns (Some path), self')
            | Raises e => (Raises e, self)
            | Diverges => (Diverges, self)
            end
        | Returns None => (Returns None, self)
        | Raises e => (Raises e, self)
        | Diverges => (Diverges, self)
        end
  end.

Definition find_path : AStarPathfinder -> Coord -> Coord ->
    result (option Path) * AStarPathfinder :=
  find_path_with search.

Definition get_cache_size (self : AStarPathfinder) : Z :=
  Z.of_nat (length (path_cache self)).

Definition clear_cache (self : AStarPathfinder) : AStarPathfinder :=
  {| world_state := world_state self;
     max_iterations := max_iterations self;
     path_cache := [];
     cache_max_size := cache_max_size self |}.

Definition reinitialize (self : AStarPathfinder) (world_state : WorldState.t) : AStarPathfinder :=
  clear_cache
    {| world_state := world_state;
       max_iterations := max_iterations self;
       path_cache := path_cache self;
       cache_max_size := cache_max_size self |}.

(** ** Routes and their cost *)

(** Each step of [path] goes to a neighbour that can be entered: the moves
    the search itself makes (lines 78-79). *)
Fixpoint is_route (w : WorldState.t) (path : Path) : bool :=
  match path with
  | p :: (q :: _) as rest =>
      bool_decide (q ∈ _get_neighbors w p) && _is_passable w q && is_route w rest
  | _ => true
  end.

(** The edge costs of [path] added up from [g] on, step after step, the way
    line 83 adds them to [g_cost]. *)
Fixpoint path_cost_from (w : WorldState.t) (g : float) (path : Path) : float :=
  match path with
  | p :: (q :: _) as rest => path_cost_from w (g + _get_movement_cost w p q)%float rest
  | _ => g
  end.

Definition path_cost (w : WorldState.t) (path : Path) : float :=
  path_cost_from w 0 path.

(** ** Small worlds *)

(** A tile that cannot be entered: stone, filled with water. *)
Definition wall : Tile.t :=
  {| Tile.material := Constants.TILE_STONE; Tile.water_level := 7 |}.

(** Flat, 5 by 5, one level, every tile at its default. *)
Definition flat5 : WorldState.t := WorldState.__init__ 5 1.

(** 20 by 20, two levels, every tile at its default: open everywhere, every
    tile of cost 1. *)
Definition open20 : WorldState.t := WorldState.__init__ 20 2.

(** 4 by 4, two levels, default tiles but for a wall at (3, 2, 0). *)
Definition walled4 : WorldState.t :=
  WorldState.set_tile (WorldState.__init__ 4 2) 3 2 0 wall.

(** ** world_state_simple.py: the rest of Tile and WorldState *)

(** [Tile.is_solid]: [material in [TILE_STONE, TILE_SOIL]]. *)
Definition is_solid (self : Tile.t) : bool :=
  bool_decide (Tile.material self = Constants.TILE_STONE)
  || bool_decide (Tile.material self = Constants.TILE_SOIL).

(** The loop of [find_surface_level], [for z in range(z_levels - 1, -1, -1)],
    with [n] levels left to look at: the next one is [n - 1]. *)
Fixpoint find_surface_loop (self : WorldState.t) (x y : Z) (n : nat) : Z :=
  match n with
  | O => 0
  | S n' =>
      let z := Z.of_nat n' in
      if bool_decide (Tile.material (WorldState.get_tile self x y z) <> Constants.TILE_EMPTY)
      then z
      else find_surface_loop self x y n'
  end.

Definition find_surface_level (self : WorldState.t) (x y : Z) : Z :=
  find_surface_loop self x y (Z.to_nat (WorldState.z_levels self)).

(** The shape the constructor gives to [tiles] and [set_tile] keeps:
    [size] rows of [size] columns of [z_levels] tiles. *)
Definition well_formed (w : WorldState.t) : Prop :=
  length (WorldState.tiles w) = Z.to_nat (WorldState.size w) /\
  Forall (fun row =>
    length row = Z.to_nat (WorldState.size w) /\
    Forall (fun col : list Tile.t => length col = Z.to_nat (WorldState.z_levels w)) row)
    (WorldState.tiles w).

(** ** entities/entity_manager.py: where a dwarf may appear *)

(** The first value a loop body returns, going through [l] in order:
    [for x in l: ... return ...]. *)
Fixpoint first_some {A B : Type} (body : A -> option B) (l : list A) : option B :=
  match l with
  | [] => None
  | x :: l' =>
      match body x with
      | Some b => Some b
      | None => first_some body l'
      end
  end.

Definition _is_suitable_spawn (w : WorldState.t) (x y z : Z) : bool :=
  if negb (WorldState.is_valid_coordinate w x y z) then false
  else
    let tile := WorldState.get_tile w x y z in
    Tile.is_passable tile && bool_decide (Tile.water_level tile < 3).

(** [range(-radius, radius + 1)] *)
Definition offsets (radius : Z) : list Z := seqZ (- radius) (radius + 1 - - radius).

Definition _find_spawn_location (w : WorldState.t) (x y z : Z) : option Coord :=
  if _is_suitable_spawn w x y z then Some (x, y, z)
  else
    first_some (fun radius =>
      first_some (fun dx =>
        first_some (fun dy =>
          if bool_decide (Z.abs dx = radius) || bool_decide (Z.abs dy = radius) then
            let test_x := x + dx in
            let test_y := y + dy in
            if _is_suitable_spawn w test_x test_y z then Some (test_x, test_y, z)
            else None
          else None)
          (offsets radius))
        (offsets radius))
      (seqZ 1 (10 - 1)).

(** ** core/game_engine_gui.py: the fallback world *)

(** The body of the three loops of [_create_minimal_world]: the tile read
    at [(x, y, z)] gets its material from the level and is written back. *)
Definition paint_tile (world : WorldState.t) (position : Coord) : WorldState.t :=
  let '(x, y, z) := position in
  let tile := WorldState.get_tile world x y z in
  let material :=
    if bool_decide (z < WorldState.z_levels world / 3) then Constants.TILE_STONE
    else if bool_decide (z < WorldState.z_levels world * 2 / 3) then Constants.TILE_SOIL
    else Constants.TILE_EMPTY in
  WorldState.set_tile world x y z
    {| Tile.material := material; Tile.water_level := Tile.water_level tile |}.

(** [_create_minimal_world], for [config.world_size] and [config.z_levels]. *)
Definition _create_minimal_world (world_size z_levels : Z) : WorldState.t :=
  let world := WorldState.__init__ world_size z_levels in
  foldl (fun world x =>
    foldl (fun world y =>
      foldl (fun world z => paint_tile world (x, y, z))
            world (seqZ 0 (WorldState.z_levels world)))
          world (seqZ 0 (WorldState.size world)))
        world (seqZ 0 (WorldState.size world)).

(** The tile the loops leave at level [z]: stone in the lowest third of the
    levels, soil in the middle one, empty above, and dry. *)
Definition terrain_tile (z_levels z : Z) : Tile.t :=
  {| Tile.material :=
       if bool_decide (z < z_levels / 3) then Constants.TILE_STONE
       else if bool_decide (z < z_levels * 2 / 3) then Constants.TILE_SOIL
       else Constants.TILE_EMPTY;
     Tile.water_level := 0 |}.

(** [world'] is [world] with the positions in [done] painted: same shape,
    the terrain tile at every position of [done] within bounds, the tile of
    [world] elsewhere, and no water anywhere. *)
Definition painted (world world' : WorldState.t) (done : Coord -> Prop) : Prop :=
  well_formed world' /\
  WorldState.size world' = WorldState.size world /\
  WorldState.z_levels world' = WorldState.z_levels world /\
  (forall x y z, done (x, y, z) -> WorldState.is_valid_coordinate world x y z = true ->
     WorldState.get_tile world' x y z = terrain_tile (WorldState.z_levels world) z) /\
  (forall x y z, ~ done (x, y, z) ->
     WorldState.get_tile world' x y z = WorldState.get_tile world x y z) /\
  (forall x y z, Tile.water_level (WorldState.get_tile world' x y z) = 0).

(** ** ai/dwarf_ai.py: DwarfAI *)

(** [l[i]] for a Python int [i]: a negative index counts from the end;
    [None] is IndexError. *)
Definition py_index {A : Type} (l : list A) (i : Z) : option A :=
  if bool_decide (0 <= i) then l !! Z.to_nat i
  else if bool_decide (0 <= Z.of_nat (length l) + i) then l !! Z.to_nat (Z.of_nat (length l) + i)
  else None.

(** The attributes that path following reads and writes: [dwarf.position]
    of the dwarf the controller holds, [current_path] and [path_index]. *)
Record DwarfAI := mkDwarfAI {
  dwarf_position : Coord;
  current_path : Path;
  path_index : Z
}.

(** [DwarfAI._move_to], with the pathfinder the controller shares. *)
Definition _move_to (self : DwarfAI) (pathfinder : AStarPathfinder)
    (target_position : Coord) : result DwarfAI * AStarPathfinder :=
  match find_path pathfinder (dwarf_position self) target_position with
  | (Returns (Some ((_ :: _) as path)), pathfinder') =>
      (Returns {| dwarf_position := dwarf_position self;
                  current_path := path;
                  path_index := 0 |}, pathfinder')
  | (Returns _, pathfinder') => (Returns self, pathfinder')
  | (Raises e, pathfinder') => (Raises e, pathfinder')
  | (Diverges, pathfinder') => (Diverges, pathfinder')
  end.

(** [DwarfAI._follow_path]; [None] is the IndexError of [current_path[...]]. *)
Definition _follow_path (self : DwarfAI) : option DwarfAI :=
  if bool_decide (path_index self < Z.of_nat (length (current_path self))) then
    target ← py_index (current_path self) (path_index self);
    Some {| dwarf_position := target;
            current_path := current_path self;
            path_index := path_index self + 1 |}
  else Some self.

(** [DwarfAI.update] *)
Definition update (self : DwarfAI) : option DwarfAI :=
  if negb (bool_decide (current_path self = []))
     && bool_decide (path_index self < Z.of_nat (length (current_path self)))
  then _follow_path self
  else Some self.

(** [n] calls of [update], one after the other. *)
Fixpoint updates (n : nat) (self : DwarfAI) : option DwarfAI :=
  match n with
  | O => Some self
  | S n' => self' ← update self; updates n' self'
  end.

(** ** What the search keeps true of the terrain under its nodes *)

(** Every node lies within bounds on a tile that can be entered, is reached
    from its parent by one of the parent's moves, and carries the cost of
    its parent plus the cost of that move; the node without parent carries
    cost 0. *)
Definition route_inv (w : WorldState.t) (nodes : gmap Coord PathNode) : Prop :=
  forall p n, nodes !! p = Some n ->
    _is_valid_position w p = true /\ _is_passable w p = true /\
    match parent n with
    | None => g_cost n = 0%float
    | Some q =>
        p ∈ _get_neighbors w q /\
        exists m, nodes !! q = Some m /\
          g_cost n = (g_cost m + _get_movement_cost w q p)%float
    end.

(** The tiles changed under a pathfinder that keeps its cache: the world
    object is shared, so [world.set_tile(x, y, z, tile)] is seen by the
    pathfinder that holds [world]. *)
Definition terrain_changed (self : AStarPathfinder) (x y z : Z) (tile : Tile.t)
    : AStarPathfinder :=
  {| world_state := WorldState.set_tile (world_state self) x y z tile;
     max_iterations := max_iterations self;
     path_cache := path_cache self;
     cache_max_size := cache_max_size self |}.

(** ** The states a search and a pathfinder go through *)

Definition continues (t : Turn) : option Search :=
  match t with
  | Skipped s' | Expanded s' => Some s'
  | Reached _ _ => None
  end.

(** The local variables a turn leaves. *)
Definition turn_state (t : Turn) : Search :=
  match t with
  | Skipped s' | Reached s' _ | Expanded s' => s'
  end.

(** The values of the local variables at the head of the [while] loop. *)
Inductive search_reachable (w : WorldState.t) (goal start : Coord) : Search -> Prop :=
| search_reachable_init :
    search_reachable w goal start (search_init goal start)
| search_reachable_turn s current_node rest s' :
    search_reachable w goal start s ->
    heapq.heappop (__lt__ (node_map s)) (open_set s) = Some (current_node, rest) ->
    continues (loop_body w goal s current_node rest) = Some s' ->
    search_reachable w goal start s'.

(** A walk along [parent] from the node at [p] to a node without parent,
    passing no node twice. *)
Inductive walk (nodes : gmap Coord PathNode) : Coord -> list Coord -> Prop :=
| walk_root p n :
    nodes !! p = Some n -> parent n = None -> walk nodes p [p]
| walk_step p n q l :
    nodes !! p = Some n -> parent n = Some q -> p ∉ l -> walk nodes q l ->
    walk nodes p (p :: l).

(** What the search keeps true of its open set, closed set and nodes. *)
Record search_inv (start : Coord) (open : list Coord) (closed : gset Coord)
    (nodes : gmap Coord PathNode) : Prop := {
  inv_open_NoDup : NoDup open;
  inv_open_closed : forall p, p ∈ open -> p ∉ closed;
  inv_open_nodes : forall p, p ∈ open -> is_Some (nodes !! p);
  inv_nodes_where : forall p, is_Some (nodes !! p) -> p ∈ open \/ p ∈ closed;
  inv_nodes : forall p n, nodes !! p = Some n ->
    position n = p /\ (parent n = None -> p = start) /\
    (forall q, parent n = Some q -> q ∈ closed);
  inv_closed : forall p, p ∈ closed ->
    exists l, walk nodes p l /\ (forall q, q ∈ l -> q ∈ closed)
}.

(** The pathfinders that the constructor and the public methods produce. *)
Inductive reachable : AStarPathfinder -> Prop :=
| reachable_init w n : reachable (__init__ w n)
| reachable_find_path self start goal :
    reachable self -> reachable (find_path self start goal).2
| reachable_clear_cache self :
    reachable self -> reachable (clear_cache self)
| reachable_reinitialize self w :
    reachable self -> reachable (reinitialize self w).

(** Every cached path is what the search gives for its key in the world
    the pathfinder holds. *)
Definition cache_sound (self : AStarPathfinder) : Prop :=
  forall start goal path, ((start, goal), path) ∈ path_cache self ->
    _is_valid_position (world_state self) start = true /\
    _is_valid_position (world_state self) goal = true /\
    _is_passable (world_state self) start = true /\
    _is_passable (world_state self) goal = true /\
    (search (world_state self) (max_iterations self) start goal).2 = Returns (Some path).

(** The pathfinders that come up when the tiles of the shared world are
    changed as well, between the calls of the public methods. *)
Inductive in_use : AStarPathfinder -> Prop :=
| in_use_init w n : in_use (__init__ w n)
| in_use_find_path self start goal :
    in_use self -> in_use (find_path self start goal).2
| in_use_clear_cache self :
    in_use self -> in_use (clear_cache self)
| in_use_reinitialize self w :
    in_use self -> in_use (reinitialize self w)
| in_use_terrain_changed self x y z tile :
    in_use self -> in_use (terrain_changed self x y z tile).

(** The first [n] turns of the [while] loop from [s]: the local variables
    at the head of the turn after them, [None] when the loop has ended
    before. *)
Fixpoint turns (w : WorldState.t) (goal : Coord) (n : nat) (s : Search) : option Search :=
  match n with
  | O => Some s
  | S n' =>
      match heapq.heappop (__lt__ (node_map s)) (open_set s) with
      | None => None
      | Some (current_node, rest) =>
          match continues (loop_body w goal s current_node rest) with
          | Some s' => turns w goal n' s'
          | None => None
          end
      end
  end.

(** ** More worlds and pathfinders to compute on *)

(** The search from (3, 3, 0) to (3, 0, 1) on [walled4] after eight turns:
    the next turn pops (3, 2, 1), whose neighbour (3, 1, 1) is in the open
    set already, with a dearer route. *)
Definition walled4_turn8 : Search :=
  default (search_init (3, 0, 1) (3, 3, 0))
          (turns walled4 (3, 0, 1) 8 (search_init (3, 0, 1) (3, 3, 0))).

(** [pathfinder.find_path(p, p)] on an open world, then
    [world.set_tile(3, 2, 0, wall)] on the world the pathfinder holds, for
    [p = (3, 2, 0)]. *)
Definition stale4 : AStarPathfinder :=
  terrain_changed
    (find_path (__init__ (WorldState.__init__ 4 2) 1000) (3, 2, 0) (3, 2, 0)).2
    3 2 0 wall.

(** A pathfinder with a full cache: on an open world of 32 by 32,
    [find_path(p, p)] for a thousand cells [p], row by row. *)
Definition cells32 : list Coord := (fun i => (i mod 32, i / 32, 0)) <$> seqZ 0 1000.

Definition full_cache : AStarPathfinder :=
  foldl (fun self p => (find_path self p p).2)
        (__init__ (WorldState.__init__ 32 1) 1000) cells32.

(** * Properties *)

(** ** heapq keeps the items *)

Section heapq_facts.
Context {A : Type} (lt : A -> A -> bool).
Implicit Types (heap : list A) (a b : A).

(** The loops of [_siftdown] and [_siftup] end by their own tests: more
    turns than the bound given in the definitions change nothing. *)
Lemma _siftdown_loop_turns n m heap newitem startpos pos :
  (pos <= n)%nat -> (pos <= m)%nat ->
  heapq._siftdown_loop lt n heap newitem startpos pos =
  heapq._siftdown_loop lt m heap newitem startpos pos.
Proof.
  revert m heap pos.
  induction n as [|n IH]; intros [|m] heap pos Hn Hm; cbn [heapq._siftdown_loop];
    try done.
  - rewrite bool_decide_false by lia. done.
  - rewrite bool_decide_false by lia. done.
  - case_bool_decide as Hlt; [|done].
    destruct (heap !! ((pos - 1) / 2)%nat) as [parent|]; [|done].
    destruct (lt newitem parent); [|done].
    assert ((pos - 1) / 2 <= pos - 1)%nat by (apply Nat.Div0.div_le_upper_bound; lia).
    apply IH; lia.
Qed.

Lemma _siftup_loop_turns n m heap endpos pos :
  (endpos - pos <= n)%nat -> (endpos - pos <= m)%nat ->
  heapq._siftup_loop lt n heap endpos pos = heapq._siftup_loop lt m heap endpos pos.
Proof.
  revert m heap pos.
  induction n as [|n IH]; intros [|m] heap pos Hn Hm; cbn [heapq._siftup_loop];
    try done.
  - rewrite bool_decide_false by lia. done.
  - rewrite bool_decide_false by lia. done.
  - case_bool_decide as Hlt; [|done].
    set (childpos :=
      match heap !! (2 * pos + 1)%nat, heap !! (2 * pos + 1 + 1)%nat with
      | Some l, Some r =>
          if bool_decide (2 * pos + 1 + 1 < endpos)%nat && negb (lt l r)
          then (2 * pos + 1 + 1)%nat else (2 * pos + 1)%nat
      | _, _ => (2 * pos + 1)%nat
      end).
    assert (pos < childpos < endpos)%nat as Hchild.
    { unfold childpos. repeat case_match; try lia.
      match goal with
      | H : _ && _ = true |- _ => apply andb_prop in H as [H%bool_decide_eq_true _]; lia
      end. }
    fold childpos. clearbody childpos.
    destruct (heap !! childpos) as [c|]; [|done]. apply IH; lia.
Qed.

Lemma cons_insert_swap heap a b j :
  (j < length heap)%nat -> b :: <[j := a]> heap ≡ₚ a :: <[j := b]> heap.
Proof.
  revert j. induction heap as [|y t IH]; intros [|k] Hlen; simpl in *; try lia.
  - apply perm_swap.
  - etrans; [apply perm_swap|].
    etrans; [apply perm_skip, (IH k); lia|]. apply perm_swap.
Qed.

(** Overwriting slot [j] with the item of slot [i] and slot [i] with [b]
    is overwriting slot [j] with [b], up to the order. *)
Lemma insert_insert_swap heap i j a b :
  heap !! i = Some a -> i <> j -> (j < length heap)%nat ->
  <[i := b]> (<[j := a]> heap) ≡ₚ <[j := b]> heap.
Proof.
  revert i j. induction heap as [|y t IH]; intros [|i] [|j] Hi Hne Hlen;
    simpl in *; try lia; try done.
  - injection Hi as ->. apply cons_insert_swap. lia.
  - rewrite <- (list_insert_id t i a) at 2 by done.
    apply cons_insert_swap. by eapply lookup_lt_Some.
  - f_equiv. apply IH; [done | congruence | lia].
Qed.

Lemma _siftdown_loop_perm n heap newitem startpos pos :
  (pos < length heap)%nat ->
  heapq._siftdown_loop lt n heap newitem startpos pos ≡ₚ <[pos := newitem]> heap.
Proof.
  revert heap pos.
  induction n as [|n IH]; intros heap pos Hpos; cbn [heapq._siftdown_loop]; [done|].
  case_bool_decide as Hlt; [|done].
  destruct (heap !! ((pos - 1) / 2)%nat) as [parent|] eqn:Hparent; [|done].
  destruct (lt newitem parent); [|done].
  assert ((pos - 1) / 2 < pos)%nat as Hless.
  { apply Nat.le_lt_trans with (pos - 1)%nat; [apply Nat.Div0.div_le_upper_bound|]; lia. }
  rewrite IH by (rewrite length_insert; lia).
  apply insert_insert_swap; [done | lia | done].
Qed.

Lemma _siftdown_perm heap startpos pos :
  heapq._siftdown lt heap startpos pos ≡ₚ heap.
Proof.
  unfold heapq._siftdown. destruct (heap !! pos) as [newitem|] eqn:Hpos; [|done].
  rewrite _siftdown_loop_perm by (by eapply lookup_lt_Some).
  by rewrite list_insert_id.
Qed.

Lemma _siftup_loop_perm n heap endpos pos heap' leaf x :
  (pos < length heap)%nat ->
  heapq._siftup_loop lt n heap endpos pos = (heap', leaf) ->
  (leaf < length heap')%nat /\ <[leaf := x]> heap' ≡ₚ <[pos := x]> heap.
Proof.
  revert heap pos.
  induction n as [|n IH]; intros heap pos Hpos; cbn [heapq._siftup_loop].
  { intros [= <- <-]. done. }
  case_bool_decide as Hlt; [|intros [= <- <-]; done].
  set (childpos :=
    match heap !! (2 * pos + 1)%nat, heap !! (2 * pos + 1 + 1)%nat with
    | Some l, Some r =>
        if bool_decide (2 * pos + 1 + 1 < endpos)%nat && negb (lt l r)
        then (2 * pos + 1 + 1)%nat else (2 * pos + 1)%nat
    | _, _ => (2 * pos + 1)%nat
    end).
  assert (pos < childpos)%nat as Hchild.
  { unfold childpos. repeat case_match; lia. }
  fold childpos. clearbody childpos.
  destruct (heap !! childpos) as [c|] eqn:Hc; [|intros [= <- <-]; done].
  pose proof (lookup_lt_Some _ _ _ Hc) as Hclen.
  intros Hloop. apply IH in Hloop as [Hleaf Hperm]; [|rewrite length_insert; lia].
  split; [done|]. rewrite Hperm.
  apply insert_insert_swap; [done | lia | done].
Qed.

Lemma _siftup_perm heap pos : heapq._siftup lt heap pos ≡ₚ heap.
Proof.
  unfold heapq._siftup. destruct (heap !! pos) as [newitem|] eqn:Hpos; [|done].
  destruct (heapq._siftup_loop lt (length heap) heap (length heap) pos)
    as [heap' leaf] eqn:Hloop.
  apply (_siftup_loop_perm _ _ _ _ _ _ newitem) in Hloop as [_ Hperm];
    [|by eapply lookup_lt_Some].
  by rewrite _siftdown_perm, Hperm, list_insert_id.
Qed.

Lemma heappush_perm heap item : heapq.heappush lt heap item ≡ₚ item :: heap.
Proof.
  unfold heapq.heappush. rewrite _siftdown_perm. by rewrite Permutation_app_comm.
Qed.

Lemma heappop_perm heap item rest :
  heapq.heappop lt heap = Some (item, rest) -> heap ≡ₚ item :: rest.
Proof.
  unfold heapq.heappop. destruct (last heap) as [lastelt|] eqn:Hlast; [|done].
  apply last_Some in Hlast as [l ->]. rewrite removelast_last.
  destruct l as [|returnitem l'].
  - intros [= <- <-]. done.
  - intros [= <- <-]. rewrite _siftup_perm. simpl.
    apply perm_skip. symmetry. apply Permutation_cons_append.
Qed.

Lemma heappop_None heap : heapq.heappop lt heap = None <-> heap = [].
Proof.
  unfold heapq.heappop. split.
  - destruct (last heap) eqn:Hlast; [by repeat case_match|].
    by apply last_None in Hlast.
  - by intros ->.
Qed.

End heapq_facts.

(** ** Walks along parents *)

Lemma walk_agree nodes nodes' p l :
  walk nodes p l -> (forall q, q ∈ l -> nodes' !! q = nodes !! q) -> walk nodes' p l.
Proof.
  induction 1 as [p n Hp Hn|p n q l Hp Hn Hnot Hwalk IH]; intros Hsame.
  - eapply walk_root; [|done]. rewrite Hsame; [done|]. apply list_elem_of_here.
  - eapply walk_step; [|done..|].
    + rewrite Hsame; [done|]. apply list_elem_of_here.
    + apply IH. intros r Hr. apply Hsame. by apply list_elem_of_further.
Qed.

Lemma walk_head nodes p l : walk nodes p l -> head l = Some p.
Proof. by destruct 1. Qed.

Lemma walk_NoDup nodes p l : walk nodes p l -> NoDup l.
Proof.
  induction 1; [apply NoDup_singleton|]. by apply NoDup_cons.
Qed.

Lemma walk_nodes nodes p l q : walk nodes p l -> q ∈ l -> is_Some (nodes !! q).
Proof.
  induction 1 as [p n Hp Hn|p n r l Hp Hn Hnot Hwalk IH]; intros Hq.
  - apply list_elem_of_singleton in Hq as ->. by eexists.
  - apply elem_of_cons in Hq as [->|Hq]; [by eexists | by apply IH].
Qed.

Lemma walk_length nodes p l : walk nodes p l -> (length l <= size nodes)%nat.
Proof.
  intros Hwalk.
  rewrite <- (size_list_to_set (C := gset Coord) l) by (by eapply walk_NoDup).
  rewrite <- size_dom. apply subseteq_size. intros q Hq.
  apply elem_of_list_to_set in Hq. apply elem_of_dom. by eapply walk_nodes.
Qed.

Lemma walk_last nodes p l start :
  (forall q n, nodes !! q = Some n -> parent n = None -> q = start) ->
  walk nodes p l -> last l = Some start.
Proof.
  intros Hroot. induction 1 as [p n Hp Hn|p n q l Hp Hn Hnot Hwalk IH].
  - simpl. f_equal. by eapply Hroot.
  - destruct Hwalk; by rewrite last_cons, IH.
Qed.

Lemma _reconstruct_loop_walk nodes p l n path :
  (forall q m, nodes !! q = Some m -> position m = q) ->
  walk nodes p l -> (length l <= n)%nat ->
  _reconstruct_loop n nodes (Some p) path = Returns (path ++ l).
Proof.
  intros Hpos Hwalk. revert n path.
  induction Hwalk as [p m Hp Hm|p m q l Hp Hm Hnot Hwalk IH]; intros [|n] path Hlen;
    simpl in *; try lia.
  - rewrite (lookup_total_correct _ _ _ Hp), Hm. destruct n; simpl; by erewrite Hpos.
  - rewrite (lookup_total_correct _ _ _ Hp), Hm, (Hpos _ _ Hp), IH by lia.
    by rewrite <- app_assoc.
Qed.

Lemma _reconstruct_path_walk nodes p l :
  (forall q m, nodes !! q = Some m -> position m = q) ->
  walk nodes p l -> _reconstruct_path nodes p = Returns (reverse l).
Proof.
  intros Hpos Hwalk. unfold _reconstruct_path.
  by rewrite (_reconstruct_loop_walk _ _ l) by eauto using walk_length.
Qed.

(** ** The search keeps its invariant *)

Lemma heappush_singleton {A} (lt : A -> A -> bool) (item : A) :
  heapq.heappush lt [] item = [item].
Proof. reflexivity. Qed.

Lemma search_init_inv goal start :
  let s := search_init goal start in
  search_inv start (open_set s) (closed_set s) (node_map s).
Proof.
  simpl. rewrite heappush_singleton. split.
  - apply NoDup_singleton.
  - intros p _. apply not_elem_of_empty.
  - intros p ->%list_elem_of_singleton. rewrite lookup_singleton_eq. by eexists.
  - intros p [n Hn]. apply lookup_singleton_Some in Hn as [<- _].
    left. apply list_elem_of_here.
  - intros p n [<- <-]%lookup_singleton_Some. simpl. done.
  - intros p Hp. by apply not_elem_of_empty in Hp.
Qed.

(** Line 69: the node just popped joins the closed set. *)
Lemma close_inv start open closed nodes current rest :
  search_inv start open closed nodes -> open ≡ₚ current :: rest ->
  search_inv start rest (closed ∪ {[current]}) nodes.
Proof.
  intros [Hnodup Hopen Hin Hwhere Hnodes Hclosed] Hperm.
  rewrite Hperm in Hnodup. apply NoDup_cons in Hnodup as [Hnotin Hnodup].
  assert (current ∉ closed) as Hfresh.
  { apply Hopen. rewrite Hperm. apply list_elem_of_here. }
  split; [done|..].
  - intros p Hp [Hc| ->%elem_of_singleton]%elem_of_union; [|done].
    eapply Hopen; [|done]. rewrite Hperm. by apply list_elem_of_further.
  - intros p Hp. apply Hin. rewrite Hperm. by apply list_elem_of_further.
  - intros p Hp. apply Hwhere in Hp as [Hp|Hp]; [|right; by apply elem_of_union_l].
    rewrite Hperm in Hp. apply elem_of_cons in Hp as [->|Hp]; [|by left].
    right. by apply elem_of_union_r, elem_of_singleton.
  - intros p n Hn. destruct (Hnodes p n Hn) as (Hpos & Hroot & Hpar).
    split_and!; [done..|]. intros q Hq. apply elem_of_union_l. by apply Hpar.
  - assert (forall p, p ∈ closed ->
      exists l, walk nodes p l /\ (forall q, q ∈ l -> q ∈ closed ∪ {[current]})) as Hold.
    { intros p Hp. destruct (Hclosed p Hp) as (l & Hwalk & Hl).
      exists l. split; [done|]. intros q Hq. apply elem_of_union_l. by apply Hl. }
    intros p [Hp| ->%elem_of_singleton]%elem_of_union; [by apply Hold|].
    destruct (Hin current) as [n Hn]; [rewrite Hperm; apply list_elem_of_here|].
    destruct (Hnodes current n Hn) as (_ & _ & Hpar).
    destruct (parent n) as [q|] eqn:Hparent.
    + destruct (Hclosed q (Hpar q eq_refl)) as (l & Hwalk & Hl).
      exists (current :: l). split.
      * eapply walk_step; [done..| |done]. intros Hcur. by apply Hfresh, Hl.
      * intros r [->|Hr]%elem_of_cons; [by apply elem_of_union_r, elem_of_singleton|].
        apply elem_of_union_l. by apply Hl.
    + exists [current]. split; [by eapply walk_root|].
      intros r ->%list_elem_of_singleton. by apply elem_of_union_r, elem_of_singleton.
Qed.

(** Lines 79-101 for one neighbour. *)
Lemma visit_neighbor_inv w goal start closed current nodes heap neighbor_pos :
  current ∈ closed ->
  search_inv start heap closed nodes ->
  let '(nodes', heap') :=
    visit_neighbor w goal closed current (nodes, heap) neighbor_pos in
  search_inv start heap' closed nodes'.
Proof.
  intros Hcur Hinv. unfold visit_neighbor.
  case_bool_decide as Hnp; simpl; [done|].
  destruct (negb (_is_passable w neighbor_pos)); [done|].
  destruct Hinv as [Hnodup Hopen Hin Hwhere Hnodes Hclosed].
  assert (forall (n : PathNode), position n = neighbor_pos -> parent n = Some current ->
    forall p m, <[neighbor_pos := n]> nodes !! p = Some m ->
      position m = p /\ (parent m = None -> p = start) /\
      (forall q, parent m = Some q -> q ∈ closed)) as Hnodes'.
  { intros n Hpos Hpar p m Hm. destruct (decide (neighbor_pos = p)) as [<-|Hne].
    - rewrite lookup_insert_eq in Hm. injection Hm as <-.
      split_and!; [done|by rewrite Hpar|]. rewrite Hpar. by intros q [= <-].
    - rewrite lookup_insert_ne in Hm by done. by apply Hnodes. }
  assert (forall (n : PathNode) p, p ∈ closed ->
    exists l, walk (<[neighbor_pos := n]> nodes) p l /\ (forall q, q ∈ l -> q ∈ closed))
    as Hclosed'.
  { intros n p Hp. destruct (Hclosed p Hp) as (l & Hwalk & Hl).
    exists l. split; [|done]. eapply walk_agree; [done|].
    intros q Hq. apply lookup_insert_ne. intros <-. by apply Hnp, Hl. }
  destruct (nodes !! neighbor_pos) as [neighbor_node|] eqn:Hlookup.
  - destruct (_ <? _)%float; [|done]. split; [done..| | | |].
    + intros p Hp. rewrite lookup_insert. case_decide; [by eexists|by apply Hin].
    + intros p Hp. apply Hwhere. rewrite lookup_insert in Hp.
      case_decide as Heq; [by subst|done].
    + apply Hnodes'; [|done]. simpl. by apply (Hnodes _ _ Hlookup).
    + apply Hclosed'.
  - assert (neighbor_pos ∉ heap) as Hfresh.
    { intros Hheap. apply Hin in Hheap as [? ?]. congruence. }
    split.
    + rewrite heappush_perm. by apply NoDup_cons.
    + intros p. rewrite heappush_perm. intros [->|Hp]%elem_of_cons; [done|by apply Hopen].
    + intros p. rewrite heappush_perm, lookup_insert.
      intros [->|Hp]%elem_of_cons; [by rewrite decide_True; eauto|].
      case_decide; [by eexists|by apply Hin].
    + intros p Hp. rewrite heappush_perm. rewrite lookup_insert in Hp.
      case_decide as Heq; [subst; left; apply list_elem_of_here|].
      destruct (Hwhere p Hp); [left; by apply list_elem_of_further|by right].
    + by apply Hnodes'.
    + apply Hclosed'.
Qed.

(** Lines 78-101: the whole [for] loop. *)
Lemma visit_neighbors_inv w goal start closed current neighbors nodes heap :
  current ∈ closed ->
  search_inv start heap closed nodes ->
  let '(nodes', heap') :=
    foldl (visit_neighbor w goal closed current) (nodes, heap) neighbors in
  search_inv start heap' closed nodes'.
Proof.
  intros Hcur. revert nodes heap.
  induction neighbors as [|neighbor_pos neighbors IH]; intros nodes heap Hinv;
    cbn [foldl]; [done|].
  pose proof (visit_neighbor_inv w goal start closed current nodes heap neighbor_pos Hcur Hinv)
    as Hstep.
  destruct (visit_neighbor w goal closed current (nodes, heap) neighbor_pos)
    as [nodes1 heap1].
  by apply IH.
Qed.

(** Lines 63-101: one turn of the loop, from a state that satisfies the
    invariant.  The node popped is not closed, so line 67 is not taken; a
    turn that reaches the goal returns the walk from the goal to the start,
    reversed; any other turn keeps the invariant. *)
Lemma loop_body_inv w goal start s current_node rest :
  search_inv start (open_set s) (closed_set s) (node_map s) ->
  heapq.heappop (__lt__ (node_map s)) (open_set s) = Some (current_node, rest) ->
  match loop_body w goal s current_node rest with
  | Skipped _ => False
  | Reached _ path =>
      current_node = goal /\
      exists l, walk (node_map s) goal l /\ last l = Some start /\ path = Returns (reverse l)
  | Expanded s' =>
      current_node <> goal /\
      search_inv start (open_set s') (closed_set s') (node_map s')
  end.
Proof.
  intros Hinv Hpop. apply heappop_perm in Hpop.
  pose proof (close_inv _ _ _ _ _ _ Hinv Hpop) as Hinv'.
  destruct (inv_open_nodes _ _ _ _ Hinv current_node) as [n Hn].
  { rewrite Hpop. apply list_elem_of_here. }
  destruct (inv_nodes _ _ _ _ Hinv _ _ Hn) as (Hpos & _ & _).
  unfold loop_body. rewrite (lookup_total_correct _ _ _ Hn), Hpos. clear Hpos.
  rewrite bool_decide_false.
  2: { apply (inv_open_closed _ _ _ _ Hinv). rewrite Hpop. apply list_elem_of_here. }
  case_bool_decide as Hgoal.
  - subst current_node. split; [done|].
    destruct (inv_closed _ _ _ _ Hinv' goal) as (l & Hwalk & _);
      [by apply elem_of_union_r, elem_of_singleton|].
    exists l. split_and!; [done|..].
    + eapply walk_last; [|exact Hwalk].
      intros q m Hm. by destruct (inv_nodes _ _ _ _ Hinv _ _ Hm) as (_ & ? & _).
    + apply _reconstruct_path_walk; [|exact Hwalk].
      intros q m Hm. by destruct (inv_nodes _ _ _ _ Hinv _ _ Hm) as (? & _).
  - pose proof (visit_neighbors_inv w goal start (closed_set s ∪ {[current_node]})
      current_node (_get_neighbors w current_node) (node_map s) rest) as Hloop.
    destruct (foldl _ _ _) as [nodes' open']. simpl.
    split; [done|]. apply Hloop; [by apply elem_of_union_r, elem_of_singleton|done].
Qed.

Lemma search_reachable_inv w goal start s :
  search_reachable w goal start s ->
  search_inv start (open_set s) (closed_set s) (node_map s).
Proof.
  induction 1 as [|s current_node rest s' _ IH Hpop Hturn]; [apply search_init_inv|].
  pose proof (loop_body_inv w goal start s current_node rest IH Hpop) as Hbody.
  destruct (loop_body w goal s current_node rest); simpl in Hturn; [done|done|].
  injection Hturn as <-. apply Hbody.
Qed.


(** A search returns, and what it returns is no path or the reversed walk
    from the goal to the start in the state the last turn began with. *)
Lemma search_loop_returns w goal start n s :
  search_reachable w goal start s ->
  (search_loop w goal n s).2 = Returns None \/
  exists s' l, search_reachable w goal start s' /\
    walk (node_map s') goal l /\ last l = Some start /\
    (search_loop w goal n s).2 = Returns (Some (reverse l)).
Proof.
  revert s. induction n as [|n IH]; intros s Hreach; simpl; [by left|].
  destruct (heapq.heappop _ _) as [[current_node rest]|] eqn:Hpop; [|by left].
  pose proof (loop_body_inv w goal start s current_node rest
    (search_reachable_inv _ _ _ _ Hreach) Hpop) as Hbody.
  destruct (loop_body w goal s current_node rest) as [s'|s' path|s'] eqn:Hturn.
  - done.
  - destruct Hbody as (_ & l & Hwalk & Hlast & ->). right. by exists s, l.
  - apply IH. eapply search_reachable_turn; [done..|]. by rewrite Hturn.
Qed.

Lemma search_returns_walk w max_iterations start goal :
  (search w max_iterations start goal).2 = Returns None \/
  exists s l, search_reachable w goal start s /\
    walk (node_map s) goal l /\ last l = Some start /\
    (search w max_iterations start goal).2 = Returns (Some (reverse l)).
Proof. apply search_loop_returns, search_reachable_init. Qed.

Lemma search_returns w max_iterations start goal :
  (search w max_iterations start goal).2 = Returns None \/
  exists path, (search w max_iterations start goal).2 = Returns (Some path) /\
    head path = Some start /\ last path = Some goal.
Proof.
  destruct (search_returns_walk w max_iterations start goal)
    as [Hnone|(s & l & _ & Hwalk & Hlast & Hsome)]; [by left|].
  right. exists (reverse l). split_and!; [done|..].
  - by rewrite head_reverse.
  - rewrite last_reverse. by eapply walk_head.
Qed.

(** The counter goes up by one with every [heappop] and never passes the
    number of turns allowed. *)
Lemma loop_body_iterations w goal s current_node rest :
  iterations (turn_state (loop_body w goal s current_node rest)) = iterations s + 1.
Proof.
  unfold loop_body. repeat case_bool_decide; try done. by destruct (foldl _ _ _).
Qed.

Lemma search_loop_iterations w goal n s :
  iterations s <= iterations (search_loop w goal n s).1 <= iterations s + Z.of_nat n.
Proof.
  revert s. induction n as [|n IH]; intros s; cbn [search_loop]; [simpl; lia|].
  destruct (heapq.heappop _ _) as [[current_node rest]|]; [|simpl; lia].
  pose proof (loop_body_iterations w goal s current_node rest) as Hcount.
  destruct (loop_body w goal s current_node rest) as [s'|s' [path|e|]|s'];
    simpl in Hcount; try (specialize (IH s'); lia); simpl; lia.
Qed.

(** ** The dict *)

Section dict_facts.
Context {K V : Type} `{EqDecision K}.
Implicit Types (d : dict.t K V) (k : K) (v : V).

Lemma dict_get_elem_of d k v : dict.get d k = Some v -> (k, v) ∈ d.
Proof.
  induction d as [|[k' v'] d IH]; simpl; [done|].
  case_decide as Hk; [intros [= ->]; subst; apply list_elem_of_here|].
  intros Hget. by apply list_elem_of_further, IH.
Qed.

Lemma dict_set_elem_of d k v e : e ∈ dict.set d k v -> e = (k, v) \/ e ∈ d.
Proof.
  induction d as [|[k' v'] d IH]; simpl.
  - intros ->%list_elem_of_singleton. by left.
  - case_decide as Hk.
    + intros [->|He]%elem_of_cons; [left; by subst|right; by apply list_elem_of_further].
    + intros [->|He]%elem_of_cons; [right; apply list_elem_of_here|].
      destruct (IH He); [by left|right; by apply list_elem_of_further].
Qed.

Lemma dict_del_elem_of d k e : e ∈ dict.del d k -> e ∈ d.
Proof.
  induction d as [|[k' v'] d IH]; simpl; [done|].
  case_decide; [apply list_elem_of_further|].
  intros [->|He]%elem_of_cons; [apply list_elem_of_here|by apply list_elem_of_further, IH].
Qed.

Lemma dict_get_set d k v : dict.get (dict.set d k v) k = Some v.
Proof.
  induction d as [|[k' v'] d IH]; simpl; [by rewrite decide_True|].
  case_decide as Hk; simpl; [by rewrite decide_True|by rewrite decide_False].
Qed.

(** A new key goes to the back: the list is in the order of insertion. *)
Lemma dict_set_new d k v : dict.get d k = None -> dict.set d k v = d ++ [(k, v)].
Proof.
  induction d as [|[k' v'] d IH]; simpl; [done|].
  case_decide; [done|]. intros Hget. by rewrite IH.
Qed.

Lemma dict_get_del_None d k k' : dict.get d k = None -> dict.get (dict.del d k') k = None.
Proof.
  induction d as [|[k0 v0] d IH]; simpl; [done|].
  case_decide as Hk; [done|]. intros Hget.
  case_decide; [done|]. simpl. rewrite decide_False by done. by apply IH.
Qed.

Lemma dict_length_set d k v : (length (dict.set d k v) <= S (length d))%nat.
Proof.
  induction d as [|[k' v'] d IH]; simpl; [lia|]. case_decide; simpl; lia.
Qed.

End dict_facts.

(** ** [find_path], case by case *)

(** Lines 45-104 reached with a pair that is not cached: what [find_path]
    gives follows what the search gives. *)
Lemma find_path_searches self start goal :
  dict.get (path_cache self) (start, goal) = None ->
  _is_valid_position (world_state self) start = true ->
  _is_valid_position (world_state self) goal = true ->
  _is_passable (world_state self) start = true ->
  _is_passable (world_state self) goal = true ->
  find_path self start goal =
    match (search (world_state self) (max_iterations self) start goal).2 with
    | Returns (Some path) =>
        match _cache_path self (start, goal) path with
        | Returns self' => (Returns (Some path), self')
        | Raises e => (Raises e, self)
        | Diverges => (Diverges, self)
        end
    | Returns None => (Returns None, self)
    | Raises e => (Raises e, self)
    | Diverges => (Diverges, self)
    end.
Proof.
  intros Hget Hs Hg Hps Hpg. unfold find_path, find_path_with.
  by rewrite Hget, Hs, Hg, Hps, Hpg.
Qed.

(** Lines 38-43. *)
Lemma find_path_with_invalid run self start goal :
  dict.get (path_cache self) (start, goal) = None ->
  _is_valid_position (world_state self) start = false \/
  _is_valid_position (world_state self) goal = false \/
  _is_passable (world_state self) start = false \/
  _is_passable (world_state self) goal = false ->
  find_path_with run self start goal = (Returns None, self).
Proof.
  intros Hget Hbad. unfold find_path_with. rewrite Hget.
  destruct (_is_valid_position (world_state self) start),
    (_is_valid_position (world_state self) goal); simpl; try done.
  destruct (_is_passable (world_state self) start),
    (_is_passable (world_state self) goal); simpl; try done.
  by destruct Hbad as [?|[?|[?|?]]].
Qed.

(** Lines 35-36. *)
Lemma find_path_cached self start goal path :
  dict.get (path_cache self) (start, goal) = Some path ->
  find_path self start goal = (Returns (Some path), self).
Proof. intros Hget. unfold find_path, find_path_with. by rewrite Hget. Qed.

(** The ways [find_path] can end. *)
Lemma find_path_cases self start goal :
  (exists path, dict.get (path_cache self) (start, goal) = Some path /\
     find_path self start goal = (Returns (Some path), self)) \/
  (dict.get (path_cache self) (start, goal) = None /\
     find_path self start goal = (Returns None, self)) \/
  (exists path,
     dict.get (path_cache self) (start, goal) = None /\
     _is_valid_position (world_state self) start = true /\
     _is_valid_position (world_state self) goal = true /\
     _is_passable (world_state self) start = true /\
     _is_passable (world_state self) goal = true /\
     (search (world_state self) (max_iterations self) start goal).2 = Returns (Some path) /\
     head path = Some start /\ last path = Some goal /\
     ((exists self', _cache_path self (start, goal) path = Returns self' /\
         find_path self start goal = (Returns (Some path), self')) \/
      (_cache_path self (start, goal) path = Raises StopIteration /\
         find_path self start goal = (Raises StopIteration, self)))).
Proof.
  destruct (dict.get (path_cache self) (start, goal)) as [path|] eqn:Hget.
  { left. exists path. split; [done|]. by apply find_path_cached. }
  right.
  destruct (_is_valid_position (world_state self) start) eqn:Hs;
    [|left; split; [done|]; apply find_path_with_invalid; auto].
  destruct (_is_valid_position (world_state self) goal) eqn:Hg;
    [|left; split; [done|]; apply find_path_with_invalid; auto].
  destruct (_is_passable (world_state self) start) eqn:Hps;
    [|left; split; [done|]; apply find_path_with_invalid; auto].
  destruct (_is_passable (world_state self) goal) eqn:Hpg;
    [|left; split; [done|]; apply find_path_with_invalid; auto].
  rewrite find_path_searches by done.
  destruct (search_returns (world_state self) (max_iterations self) start goal)
    as [Hnone|(path & Hsome & Hhead & Hlast)].
  - left. by rewrite Hnone.
  - right. exists path. rewrite Hsome. split_and!; try done.
    unfold _cache_path. case_bool_decide; [|left; by eexists].
    destruct (dict.first_key _); [left; by eexists|right; done].
Qed.

(** ** The cache *)

Lemma dict_del_first {K V : Type} `{EqDecision K} (k : K) (v : V) (d : dict.t K V) :
  dict.del ((k, v) :: d) k = d.
Proof. simpl. by rewrite decide_True. Qed.

(** What a store that returns leaves. *)
Lemma _cache_path_returns self cache_key path self' :
  _cache_path self cache_key path = Returns self' ->
  world_state self' = world_state self /\
  max_iterations self' = max_iterations self /\
  cache_max_size self' = cache_max_size self /\
  dict.get (path_cache self') cache_key = Some path /\
  (forall e, e ∈ path_cache self' -> e = (cache_key, path) \/ e ∈ path_cache self) /\
  (get_cache_size self <= cache_max_size self ->
   get_cache_size self' <= cache_max_size self').
Proof.
  unfold _cache_path, get_cache_size. case_bool_decide as Hfull.
  - destruct (path_cache self) as [|[oldest_key oldest] rest] eqn:Hcache; [done|].
    simpl. rewrite decide_True by done.
    intros [= <-]. simpl. split_and!; try done.
    + apply dict_get_set.
    + intros e [->|He]%dict_set_elem_of; [by left|right; by apply list_elem_of_further].
    + pose proof (dict_length_set rest cache_key path). simpl in *. lia.
  - intros [= <-]. simpl. split_and!; try done.
    + apply dict_get_set.
    + apply dict_set_elem_of.
    + pose proof (dict_length_set (path_cache self) cache_key path). lia.
Qed.

(** What every pathfinder built through the public methods satisfies. *)
Lemma reachable_inv self :
  reachable self ->
  cache_sound self /\ cache_max_size self = 1000 /\
  get_cache_size self <= cache_max_size self.
Proof.
  induction 1 as [w n|self start goal _ (Hsound & Hmax & Hsize)
    |self _ (_ & Hmax & _)|self w _ (_ & Hmax & _)].
  - split_and!; [|done|done]. intros start goal path Hin. by apply elem_of_nil in Hin.
  - destruct (find_path_cases self start goal)
      as [(path & _ & ->)|[(_ & ->)|(path & Hget & Hs & Hg & Hps & Hpg & Hsearch & _ & _ &
           [(self' & Hstore & ->)|(_ & ->)])]]; simpl; try done.
    apply _cache_path_returns in Hstore as (Hw & Hn & Hm & _ & Hin & Hlen).
    split_and!; [|congruence|by apply Hlen].
    intros start' goal' path' [[= -> -> ->]|Hold]%Hin; rewrite Hw, Hn.
    + done.
    + by apply Hsound.
  - split_and!; [|done|unfold get_cache_size; simpl; lia].
    intros start goal path Hin. by apply elem_of_nil in Hin.
  - split_and!; [|done|unfold get_cache_size; simpl; lia].
    intros start goal path Hin. by apply elem_of_nil in Hin.
Qed.

(** ** Searches that end at once *)

(** With one turn allowed, the search from [p] to [p] pops [p], finds it
    to be the goal and returns the path of one element. *)
Lemma search_same w max_iterations p :
  1 <= max_iterations -> (search w max_iterations p p).2 = Returns (Some [p]).
Proof.
  intros Hmax. unfold search.
  destruct (Z.to_nat max_iterations) as [|n] eqn:Hn; [lia|].
  unfold search_init. cbn [search_loop open_set node_map]. rewrite heappush_singleton.
  cbn [heapq.heappop last removelast]. unfold loop_body.
  cbn [node_map closed_set]. rewrite lookup_total_singleton_eq. cbn [position].
  rewrite bool_decide_false by apply not_elem_of_empty.
  rewrite bool_decide_true by done.
  unfold _reconstruct_path. rewrite map_size_singleton. cbn [_reconstruct_loop].
  rewrite lookup_total_singleton_eq. done.
Qed.

(** With one turn allowed and the goal elsewhere, the turn expands the
    start and the counter ends the loop. *)
Lemma search_one_turn w start goal :
  start <> goal -> (search w 1 start goal).2 = Returns None.
Proof.
  intros Hne. unfold search. change (Z.to_nat 1) with 1%nat.
  unfold search_init. cbn [search_loop open_set node_map]. rewrite heappush_singleton.
  cbn [heapq.heappop last removelast]. unfold loop_body.
  cbn [node_map closed_set]. rewrite lookup_total_singleton_eq. cbn [position].
  rewrite bool_decide_false by apply not_elem_of_empty.
  rewrite bool_decide_false by done.
  by destruct (foldl _ _ _).
Qed.

Lemma _cache_path_no_raise self cache_key path e :
  0 < cache_max_size self -> _cache_path self cache_key path <> Raises e.
Proof.
  intros Hmax. unfold _cache_path. case_bool_decide as Hfull; [|done].
  destruct (path_cache self); [simpl in Hfull; lia|done].
Qed.

(** For a pathfinder built through the public methods [find_path] always
    returns: it neither raises nor runs for ever. *)
Lemma find_path_returns self start goal :
  reachable self -> exists r, (find_path self start goal).1 = Returns r.
Proof.
  intros (_ & Hmax & _)%reachable_inv.
  destruct (find_path_cases self start goal)
    as [(path & _ & ->)|[(_ & ->)|(path & _ & _ & _ & _ & _ & _ & _ & _ &
         [(self' & _ & ->)|(Hraise & _)])]]; simpl; eauto.
  by apply _cache_path_no_raise in Hraise; [|lia].
Qed.

(** Two levels, a step up: the scenario of a vertical move. *)
Example find_path_vertical :
  let w := WorldState.__init__ 2 2 in
  find_path (__init__ w 1000) (0, 0, 0) (0, 0, 1) =
    (Returns (Some [(0, 0, 0); (0, 0, 1)]),
     mkAStarPathfinder w 1000 [(((0, 0, 0), (0, 0, 1)), [(0, 0, 0); (0, 0, 1)])] 1000) /\
  path_cost w [(0, 0, 0); (0, 0, 1)] = 2%float.
Proof. vm_compute. done. Qed.

(** * The claims *)

(** ** C1: the path returned is not always a shortest one *)

(** C1 (fails on the code).  In the open world [open20], where every tile
    can be entered at cost 1, [find_path] from (19,19,0) to (9,0,0) returns a
    route of twelve diagonal and seven straight steps, of cost 23.968, while
    ten diagonal steps followed by nine straight ones cost 23.14.  In the
    small world [walled4], with one wall, [find_path] from (3,3,0) to (3,0,1)
    returns a route of cost 1.414 + 1 + 1.414 + 2 while the route that
    climbs first costs 2 + 1 + 1 + 1: the node (3,1,1) is in the open set
    when a cheaper way to it is found; lines 88-90 lower its [f_cost] where
    it sits in the heap, the heap is not put in order again, and the goal
    is popped before it. *)
Theorem find_path_not_shortest :
  (let found :=
     [(19, 19, 0); (18, 18, 0); (18, 17, 0); (17, 16, 0); (16, 15, 0);
      (15, 14, 0); (15, 13, 0); (14, 12, 0); (14, 11, 0); (14, 10, 0);
      (13, 9, 0); (13, 8, 0); (12, 7, 0); (12, 6, 0); (11, 5, 0);
      (11, 4, 0); (10, 3, 0); (9, 2, 0); (8, 1, 0); (9, 0, 0)] in
   let shorter :=
     [(19, 19, 0); (18, 18, 0); (17, 17, 0); (16, 16, 0); (15, 15, 0);
      (14, 14, 0); (13, 13, 0); (12, 12, 0); (11, 11, 0); (10, 10, 0);
      (9, 9, 0); (9, 8, 0); (9, 7, 0); (9, 6, 0); (9, 5, 0);
      (9, 4, 0); (9, 3, 0); (9, 2, 0); (9, 1, 0); (9, 0, 0)] in
   (find_path (__init__ open20 1000) (19, 19, 0) (9, 0, 0)).1 = Returns (Some found) /\
   is_route open20 shorter = true /\
   head shorter = Some (19, 19, 0) /\ last shorter = Some (9, 0, 0) /\
   PrimFloat.ltb (path_cost open20 shorter) 23.2%float = true /\
   PrimFloat.ltb 23.9%float (path_cost open20 found) = true) /\
  (let found := [(3, 3, 0); (2, 2, 0); (2, 1, 0); (3, 0, 0); (3, 0, 1)] in
   let shorter := [(3, 3, 0); (3, 3, 1); (3, 2, 1); (3, 1, 1); (3, 0, 1)] in
   (find_path (__init__ walled4 1000) (3, 3, 0) (3, 0, 1)).1 = Returns (Some found) /\
   is_route walled4 shorter = true /\
   path_cost walled4 shorter = 5%float /\
   PrimFloat.ltb 5.8%float (path_cost walled4 found) = true).
Proof. vm_compute. done. Qed.

(** How the order is lost in [walled4]: after thirteen turns (3,1,1) is in
    the open set with a lower [f_cost] than the goal, and [heappop] gives the
    goal. *)
Example heappop_not_the_least :
  let s := (search walled4 13 (3, 3, 0) (3, 0, 1)).1 in
  iterations s = 13 /\
  fst <$> heapq.heappop (__lt__ (node_map s)) (open_set s) = Some (3, 0, 1) /\
  bool_decide ((3, 1, 1) ∈ open_set s) = true /\
  __lt__ (node_map s) (3, 1, 1) (3, 0, 1) = true /\
  f_cost (node_map s !!! (3, 1, 1)) = 5%float.
Proof. vm_compute. done. Qed.

(** ** C2: the cost of an edge *)

(** The rule of [_get_movement_cost] for the moves [_get_neighbors] gives:
    the cost of the tile entered, times 1.414 for a diagonal step, times
    2.0 for a step to another level. *)
Lemma _get_movement_cost_rule w x y z dx dy dz :
  Z.abs dx <= 1 -> Z.abs dy <= 1 -> Z.abs dz <= 1 ->
  let base := Tile.get_movement_cost (WorldState.get_tile w (x + dx) (y + dy) (z + dz)) in
  let diagonal := bool_decide (Z.abs dx = 1 /\ Z.abs dy = 1) in
  let vertical := bool_decide (dz <> 0) in
  _get_movement_cost w (x, y, z) (x + dx, y + dy, z + dz) =
    let cost := if diagonal then (base * 1.414)%float else base in
    if vertical then (cost * 2.0)%float else cost.
Proof.
  intros Hx Hy Hz. unfold _get_movement_cost. cbv zeta.
  replace (x + dx - x) with dx by lia. replace (y + dy - y) with dy by lia.
  replace (z + dz - z) with dz by lia.
  rewrite (bool_decide_ext (Z.abs dx + Z.abs dy > 1) (Z.abs dx = 1 /\ Z.abs dy = 1)) by lia.
  by rewrite (bool_decide_ext (Z.abs dz > 0) (dz <> 0)) by lia.
Qed.

(** C2 (fails on the code).  The factor of a diagonal step is the literal
    1.414, which is below [sqrt 2]; on the flat 5 by 5 world the path from
    (0,0,0) to (4,4,0) is the diagonal of five cells, and its cost, four
    times 1.414, is below [4 * sqrt 2]. *)
Theorem diagonal_factor_below_sqrt2 :
  let diagonal := [(0, 0, 0); (1, 1, 0); (2, 2, 0); (3, 3, 0); (4, 4, 0)] in
  _get_movement_cost flat5 (0, 0, 0) (1, 1, 0) = 1.414%float /\
  PrimFloat.ltb (_get_movement_cost flat5 (0, 0, 0) (1, 1, 0)) (1 * sqrt 2)%float = true /\
  _get_movement_cost flat5 (0, 0, 0) (1, 0, 0) = 1%float /\
  _get_movement_cost (WorldState.__init__ 2 2) (0, 0, 0) (0, 0, 1) = 2%float /\
  (find_path (__init__ flat5 1000) (0, 0, 0) (4, 4, 0)).1 = Returns (Some diagonal) /\
  PrimFloat.ltb (path_cost flat5 diagonal) (4 * sqrt 2)%float = true.
Proof. vm_compute. done. Qed.

(** ** C3: the heuristic *)

(** C3 (fails on the code).  [_heuristic] is the Euclidean distance, and on
    the flat world it is above the cost of the one-step route from (0,0,0)
    to its diagonal neighbour: [sqrt 2] against 1.414. *)
Theorem heuristic_above_cost :
  _heuristic (0, 0, 0) (1, 1, 0) = sqrt 2 /\
  _heuristic (0, 0, 0) (3, 4, 12) = 13%float /\
  is_route flat5 [(0, 0, 0); (1, 1, 0)] = true /\
  PrimFloat.ltb (path_cost flat5 [(0, 0, 0); (1, 1, 0)])
                (_heuristic (0, 0, 0) (1, 1, 0)) = true.
Proof. vm_compute. done. Qed.

(** ** C4: endpoints that cannot be used *)

(** C4.  When the pair is not cached and the start or the goal is out of
    bounds or cannot be entered, [find_path] returns [None] (it does not
    raise) and leaves the pathfinder as it was, and it does so whatever the
    search of lines 45-104 would do: the search is not run. *)
Theorem find_path_invalid_endpoint self start goal :
  dict.get (path_cache self) (start, goal) = None ->
  _is_valid_position (world_state self) start = false \/
  _is_valid_position (world_state self) goal = false \/
  _is_passable (world_state self) start = false \/
  _is_passable (world_state self) goal = false ->
  find_path self start goal = (Returns None, self) /\
  forall run, find_path_with run self start goal = (Returns None, self).
Proof.
  intros Hget Hbad. split; [|intros run]; by apply find_path_with_invalid.
Qed.

Lemma find_path_invalid_endpoint_witness :
  find_path (__init__ walled4 1000) (0, 0, 0) (3, 2, 0) =
    (Returns None, __init__ walled4 1000) /\
  forall run, find_path_with run (__init__ walled4 1000) (0, 0, 0) (3, 2, 0) =
    (Returns None, __init__ walled4 1000).
Proof.
  apply (find_path_invalid_endpoint (__init__ walled4 1000) (0, 0, 0) (3, 2, 0)).
  - reflexivity.
  - right. right. right. reflexivity.
Defined.

(** ** C5: start and goal the same *)

Lemma reachable_in_use self : reachable self -> in_use self.
Proof. induction 1; by constructor. Qed.

(** Under tile changes the cache keeps its bound, and what it holds for a
    pair [(p, p)] is [[p]]: the walls of today do not show in it. *)
Lemma in_use_inv self :
  in_use self ->
  cache_max_size self = 1000 /\
  get_cache_size self <= cache_max_size self /\
  forall p path, ((p, p), path) ∈ path_cache self -> path = [p].
Proof.
  induction 1 as [w n|self start goal _ (Hmax & Hsize & Hsame)
    |self _ (Hmax & _)|self w _ (Hmax & _)|self x y z tile _ IH].
  - split_and!; [done|done|]. intros p path Hin. by apply elem_of_nil in Hin.
  - destruct (find_path_cases self start goal)
      as [(path & _ & ->)|[(_ & ->)|(path & _ & _ & _ & _ & _ & Hsearch & _ & _ &
           [(self' & Hstore & ->)|(_ & ->)])]]; simpl; try done.
    apply _cache_path_returns in Hstore as (_ & _ & Hm & _ & Hin & Hlen).
    split_and!; [congruence|by apply Hlen|].
    intros p path' [Hnew|Hold]%Hin; [|by apply Hsame].
    injection Hnew as <- <- ->.
    destruct (decide (1 <= max_iterations self)) as [Hcap|Hcap].
    + rewrite search_same in Hsearch by done. by injection Hsearch.
    + unfold search in Hsearch.
      by replace (Z.to_nat (max_iterations self)) with 0%nat in Hsearch by lia.
  - split_and!; [done|unfold get_cache_size; simpl; lia|].
    intros p path Hin. by apply elem_of_nil in Hin.
  - split_and!; [done|unfold get_cache_size; simpl; lia|].
    intros p path Hin. by apply elem_of_nil in Hin.
  - exact IH.
Qed.

(** C5.  With at least one iteration allowed and a coordinate [p] within
    bounds, [find_path p p] returns [[p]] when the cache holds a path for
    [(p, p)], whatever the tile at [p] is by now; without such an entry it
    returns [[p]] when [p] can be entered and [None] when it cannot.  This
    holds in every state of a pathfinder, tile changes of its world
    included.  Where no tile has been changed since the cache was last empty,
    the cache plays no part: [[p]] when [p] can be entered, [None] when it
    cannot. *)
Theorem find_path_same_endpoint self p :
  in_use self ->
  _is_valid_position (world_state self) p = true ->
  1 <= max_iterations self ->
  (find_path self p p).1 =
    match dict.get (path_cache self) (p, p) with
    | Some _ => Returns (Some [p])
    | None =>
        if _is_passable (world_state self) p then Returns (Some [p]) else Returns None
    end /\
  (reachable self ->
   (find_path self p p).1 =
     if _is_passable (world_state self) p then Returns (Some [p]) else Returns None).
Proof.
  intros (Hmax & _ & Hcached)%in_use_inv Hvalid Hiter.
  pose proof (search_same (world_state self) (max_iterations self) p Hiter) as Hsame.
  assert ((find_path self p p).1 =
    match dict.get (path_cache self) (p, p) with
    | Some _ => Returns (Some [p])
    | None =>
        if _is_passable (world_state self) p then Returns (Some [p]) else Returns None
    end) as Hcall.
  { destruct (dict.get (path_cache self) (p, p)) as [path|] eqn:Hget.
    - rewrite (find_path_cached _ _ _ _ Hget). simpl.
      by rewrite (Hcached p path (dict_get_elem_of _ _ _ Hget)).
    - destruct (_is_passable (world_state self) p) eqn:Hp.
      + rewrite find_path_searches, Hsame by done.
        destruct (_cache_path self (p, p) [p]) as [self'|e|] eqn:Hstore; [done| |].
        * by apply _cache_path_no_raise in Hstore; [|lia].
        * unfold _cache_path in Hstore. repeat case_match; done.
      + unfold find_path. rewrite find_path_with_invalid; [done|done|].
        right. right. by left. }
  split; [done|].
  intros (Hsound & _)%reachable_inv. rewrite Hcall.
  destruct (dict.get (path_cache self) (p, p)) as [path|] eqn:Hget; [|done].
  by apply dict_get_elem_of, Hsound in Hget as (_ & _ & -> & _).
Qed.

Lemma find_path_same_endpoint_witness :
  (find_path (__init__ walled4 1000) (3, 1, 1) (3, 1, 1)).1 = Returns (Some [(3, 1, 1)]) /\
  (find_path (__init__ walled4 1000) (3, 2, 0) (3, 2, 0)).1 = Returns None /\
  (find_path stale4 (3, 2, 0) (3, 2, 0)).1 = Returns (Some [(3, 2, 0)]).
Proof.
  split_and!.
  - apply (find_path_same_endpoint (__init__ walled4 1000) (3, 1, 1));
      [apply in_use_init | reflexivity | simpl; lia | apply reachable_init].
  - apply (find_path_same_endpoint (__init__ walled4 1000) (3, 2, 0));
      [apply in_use_init | reflexivity | simpl; lia | apply reachable_init].
  - apply (find_path_same_endpoint stale4 (3, 2, 0));
      [apply in_use_terrain_changed, in_use_find_path, in_use_init
      | reflexivity | by vm_compute].
Defined.

(** The claim without its exception: a call, then a wall set at [p], then
    the same call.  [p] is within bounds and cannot be entered, an iteration
    is allowed, and the call returns [[p]] from the cache. *)
Lemma find_path_same_endpoint_stale :
  in_use stale4 /\
  _is_valid_position (world_state stale4) (3, 2, 0) = true /\
  1 <= max_iterations stale4 /\
  _is_passable (world_state stale4) (3, 2, 0) = false /\
  (find_path stale4 (3, 2, 0) (3, 2, 0)).1 = Returns (Some [(3, 2, 0)]).
Proof.
  split_and!.
  - apply in_use_terrain_changed, in_use_find_path, in_use_init.
  - reflexivity.
  - by vm_compute.
  - reflexivity.
  - reflexivity.
Qed.

(** ** C6: the bound on the cache *)

(** A store into a full cache of two entries: the oldest entry leaves, the
    new one goes to the back. *)
Example _cache_path_evicts :
  let a := ((0, 0, 0), (1, 0, 0)) in
  let b := ((0, 0, 0), (2, 0, 0)) in
  let c := ((0, 0, 0), (0, 1, 0)) in
  _cache_path (mkAStarPathfinder flat5 1000 [(a, [a.1; a.2]); (b, [b.1; (1, 0, 0); b.2])] 2)
              c [c.1; c.2] =
  Returns (mkAStarPathfinder flat5 1000 [(b, [b.1; (1, 0, 0); b.2]); (c, [c.1; c.2])] 2).
Proof. reflexivity. Qed.

Lemma reachable_foldl (l : list Coord) self :
  reachable self -> reachable (foldl (fun self p => (find_path self p p).2) self l).
Proof.
  revert self. induction l as [|p l IH]; intros self Hreach; [done|].
  simpl. apply IH. by constructor.
Qed.

(** C6.  For every pathfinder built through the public methods the
    maximum is 1000 and the cache holds at most that many entries.  A store
    made while the cache holds fewer entries than the maximum drops nothing.
    A store made when it holds that many or more drops the entry at the
    head of the dict, the one inserted first, and nothing else, and then
    inserts (on an empty dict the eviction is a StopIteration, which the
    maximum of 1000 rules out); an entry under a new key goes to the back.
    So a call of [find_path] that searches and finds a path leaves the cache
    it met, less its oldest entry if it was full, with the new entry at the
    back. *)
Theorem cache_size_bounded self :
  (reachable self ->
   cache_max_size self = 1000 /\ get_cache_size self <= cache_max_size self /\
   (get_cache_size self >= cache_max_size self ->
    exists oldest rest, path_cache self = oldest :: rest) /\
   forall cache_key path, exists self', _cache_path self cache_key path = Returns self') /\
  (forall cache_key path,
     let store cache :=
       {| world_state := world_state self;
          max_iterations := max_iterations self;
          path_cache := dict.set cache cache_key path;
          cache_max_size := cache_max_size self |} in
     (get_cache_size self < cache_max_size self ->
      _cache_path self cache_key path = Returns (store (path_cache self))) /\
     (get_cache_size self >= cache_max_size self -> path_cache self = [] ->
      _cache_path self cache_key path = Raises StopIteration) /\
     (forall oldest rest,
        get_cache_size self >= cache_max_size self -> path_cache self = oldest :: rest ->
        _cache_path self cache_key path = Returns (store rest) /\
        get_cache_size self - 1 <= Z.of_nat (length (dict.set rest cache_key path))
          <= get_cache_size self /\
        (dict.get (path_cache self) cache_key = None ->
         dict.set rest cache_key path = rest ++ [(cache_key, path)]))) /\
  (forall start goal path,
     reachable self ->
     dict.get (path_cache self) (start, goal) = None ->
     (find_path self start goal).1 = Returns (Some path) ->
     path_cache (find_path self start goal).2 =
       (if bool_decide (get_cache_size self >= cache_max_size self)
        then tail (path_cache self) else path_cache self) ++ [((start, goal), path)] /\
     get_cache_size (find_path self start goal).2 =
       Z.min (get_cache_size self + 1) (cache_max_size self)).
Proof.
  assert (forall cache_key path oldest rest,
    get_cache_size self >= cache_max_size self -> path_cache self = oldest :: rest ->
    _cache_path self cache_key path =
      Returns {| world_state := world_state self;
                 max_iterations := max_iterations self;
                 path_cache := dict.set rest cache_key path;
                 cache_max_size := cache_max_size self |}) as Hevict.
  { intros cache_key path [oldest_key oldest] rest Hfull Hcache.
    unfold _cache_path, get_cache_size in *. rewrite bool_decide_true by done.
    rewrite Hcache. simpl. by rewrite decide_True. }
  assert (forall cache_key path,
    get_cache_size self < cache_max_size self ->
    _cache_path self cache_key path =
      Returns {| world_state := world_state self;
                 max_iterations := max_iterations self;
                 path_cache := dict.set (path_cache self) cache_key path;
                 cache_max_size := cache_max_size self |}) as Hroom.
  { intros cache_key path Hless. unfold _cache_path, get_cache_size in *.
    by rewrite bool_decide_false by lia. }
  split_and!.
  - intros (_ & Hmax & Hsize)%reachable_inv.
    assert (get_cache_size self >= cache_max_size self ->
            exists oldest rest, path_cache self = oldest :: rest) as Hsome.
    { intros Hfull. unfold get_cache_size in Hfull.
      destruct (path_cache self) as [|oldest rest]; [simpl in Hfull; lia|by eauto]. }
    split_and!; [done..|]. intros cache_key path.
    destruct (decide (get_cache_size self >= cache_max_size self)) as [Hfull|Hless].
    + destruct (Hsome Hfull) as (oldest & rest & Hcache).
      eexists. exact (Hevict cache_key path oldest rest Hfull Hcache).
    + eexists. apply Hroom. lia.
  - intros cache_key path store. split_and!.
    + apply Hroom.
    + intros Hfull Hcache. unfold _cache_path, get_cache_size in *.
      rewrite bool_decide_true by done. by rewrite Hcache.
    + intros oldest rest Hfull Hcache. split_and!.
      * exact (Hevict cache_key path oldest rest Hfull Hcache).
      * unfold get_cache_size. rewrite Hcache. clear. simpl.
        induction rest as [|[k v] rest IH]; simpl; [lia|]. case_decide; simpl; lia.
      * unfold get_cache_size. rewrite Hcache. simpl.
        pose proof (dict_length_set rest cache_key path). lia.
      * rewrite Hcache. destruct oldest as [oldest_key oldest]. simpl.
        case_decide; [done|]. apply dict_set_new.
  - intros start goal path (_ & Hmax & Hsize)%reachable_inv Hget Hfound.
    destruct (find_path_cases self start goal)
      as [(path' & Hget' & _)|[(_ & Hcall)|(path' & _ & _ & _ & _ & _ & _ & _ & _ &
           [(self' & Hstore & Hcall)|(_ & Hcall)])]];
      [congruence|by rewrite Hcall in Hfound|..|by rewrite Hcall in Hfound].
    rewrite Hcall in Hfound |- *. simpl in Hfound |- *. injection Hfound as ->.
    case_bool_decide as Hfull.
    + destruct (path_cache self) as [|[oldest_key oldest] rest] eqn:Hcache.
      { unfold get_cache_size in Hfull. rewrite Hcache in Hfull. simpl in Hfull. lia. }
      rewrite (Hevict _ _ _ _ Hfull eq_refl) in Hstore. injection Hstore as <-.
      simpl in Hget |- *. case_decide; [done|].
      rewrite (dict_set_new _ _ _ Hget). split; [done|].
      unfold get_cache_size in *. simpl. rewrite Hcache in Hsize, Hfull |- *.
      rewrite length_app. simpl in *. lia.
    + rewrite Hroom in Hstore by lia. injection Hstore as <-. simpl.
      rewrite (dict_set_new _ _ _ Hget). split; [done|].
      unfold get_cache_size in *. simpl. rewrite length_app. simpl. lia.
Qed.

Lemma cache_size_bounded_witness :
  get_cache_size full_cache = 1000 /\
  head (path_cache full_cache) = Some ((0, 0, 0, (0, 0, 0)), [(0, 0, 0)]) /\
  path_cache (find_path full_cache (0, 0, 0) (1, 0, 0)).2 =
    tail (path_cache full_cache) ++ [((0, 0, 0, (1, 0, 0)), [(0, 0, 0); (1, 0, 0)])] /\
  get_cache_size (find_path full_cache (0, 0, 0) (1, 0, 0)).2 = 1000.
Proof.
  assert (reachable full_cache) as Hreach by apply reachable_foldl, reachable_init.
  assert (get_cache_size full_cache = 1000) as Hsize by (vm_compute; reflexivity).
  destruct (cache_size_bounded full_cache) as (Hbound & _ & Hfind).
  destruct (Hbound Hreach) as (Hmax & _).
  destruct (Hfind (0, 0, 0) (1, 0, 0) [(0, 0, 0); (1, 0, 0)] Hreach) as (Hcache & Hafter);
    [vm_compute; reflexivity..|].
  rewrite Hmax, Hsize in Hcache, Hafter. rewrite bool_decide_true in Hcache by lia.
  change (Z.min (1000 + 1) 1000) with 1000 in Hafter.
  split_and!; [exact Hsize | vm_compute; reflexivity | exact Hcache | exact Hafter].
Defined.

(** ** C7: what enters the cache *)

(** C7.  A call of [find_path] that returns [None] leaves the pathfinder,
    and so its cache, as it was; the cache is changed only by a call that
    was not served from it and returns a path, and then that path is what
    the cache holds for the pair. *)
Theorem failed_search_not_cached self start goal :
  ((find_path self start goal).1 = Returns None ->
   (find_path self start goal).2 = self) /\
  ((find_path self start goal).2 <> self ->
   exists path,
     (find_path self start goal).1 = Returns (Some path) /\
     dict.get (path_cache self) (start, goal) = None /\
     dict.get (path_cache (find_path self start goal).2) (start, goal) = Some path).
Proof.
  destruct (find_path_cases self start goal)
    as [(path & Hget & ->)|[(Hget & ->)|(path & Hget & _ & _ & _ & _ & _ & _ & _ &
         [(self' & Hstore & ->)|(_ & ->)])]]; simpl; split; try done.
  intros _. exists path. split_and!; [done..|].
  by apply _cache_path_returns in Hstore as (_ & _ & _ & ? & _).
Qed.

Lemma failed_search_not_cached_witness :
  (find_path (__init__ flat5 1) (0, 0, 0) (4, 4, 0)).2 = __init__ flat5 1.
Proof.
  apply (failed_search_not_cached (__init__ flat5 1) (0, 0, 0) (4, 4, 0)).
  reflexivity.
Defined.

(** ** C8: the two ends of a path *)



(** ** C9: the cap on iterations *)

(** C9.  With [max_iterations = 1], a pair that is not cached, both ends
    within bounds and open, and the goal not the start, [find_path] returns
    [None] and caches nothing.  Whatever the cap, the counter of pops ends
    between 0 and the cap; the loop that the counter ends and the loop that
    an empty open set ends both return [None]. *)
Theorem iteration_cap :
  (forall self start goal,
     max_iterations self = 1 ->
     dict.get (path_cache self) (start, goal) = None ->
     _is_valid_position (world_state self) start = true ->
     _is_valid_position (world_state self) goal = true ->
     _is_passable (world_state self) start = true ->
     _is_passable (world_state self) goal = true ->
     start <> goal ->
     find_path self start goal = (Returns None, self)) /\
  (forall w max_iterations start goal,
     0 <= iterations (search w max_iterations start goal).1 <= Z.max 0 max_iterations) /\
  (forall w goal s, search_loop w goal 0 s = (s, Returns None)) /\
  (forall w goal n s, open_set s = [] -> search_loop w goal n s = (s, Returns None)).
Proof.
  split_and!.
  - intros self start goal Hcap Hget Hs Hg Hps Hpg Hne.
    rewrite find_path_searches by done. by rewrite Hcap, search_one_turn.
  - intros w max_iterations start goal.
    pose proof (search_loop_iterations w goal (Z.to_nat max_iterations)
      (search_init goal start)) as Hcount.
    unfold search. change (iterations (search_init goal start)) with 0 in Hcount. lia.
  - done.
  - intros w goal [|n] s Hopen; [done|]. simpl. rewrite Hopen. done.
Qed.

Lemma iteration_cap_witness :
  find_path (__init__ flat5 1) (0, 0, 0) (1, 1, 0) = (Returns None, __init__ flat5 1) /\
  0 <= iterations (search flat5 3 (0, 0, 0) (4, 4, 0)).1 <= Z.max 0 3.
Proof.
  split.
  - apply (proj1 iteration_cap (__init__ flat5 1) (0, 0, 0) (1, 1, 0));
      [reflexivity..|discriminate].
  - apply (proj1 (proj2 iteration_cap) flat5 3 (0, 0, 0) (4, 4, 0)).
Defined.

(** ** C10: one entry per position in the open set *)

Lemma turns_reachable w goal start n s s' :
  search_reachable w goal start s -> turns w goal n s = Some s' ->
  search_reachable w goal start s'.
Proof.
  revert s. induction n as [|n IH]; simpl; intros s Hreach Hturns.
  { by injection Hturns as <-. }
  destruct (heapq.heappop _ _) as [[current_node rest]|] eqn:Hpop; [|done].
  destruct (continues _) as [s''|] eqn:Hcont; [|done].
  apply (IH s''); [|done]. by eapply search_reachable_turn.
Qed.

(** C10.  At the head of every turn of a search the open set holds no
    position twice and none that is closed, every node is in the open set
    or closed, and the node that [heappop] gives is not closed: the turn is
    never the [continue] of line 67.  Visiting a neighbour that has a node
    leaves the open set and every other node as they are; when the
    neighbour is not closed, can be entered and the route through the
    current node is cheaper than the [g_cost] the node holds, the node gets
    that cost as [g_cost], the cost plus its [h_cost] as [f_cost] and the
    current node as [parent], and in every other case it stays as it is.
    A push is made only for a position without node; the position has a
    node from then on, since no visit takes a node away. *)
Theorem open_set_no_duplicates w goal start s :
  search_reachable w goal start s ->
  NoDup (open_set s) /\
  (forall p, p ∈ open_set s -> p ∉ closed_set s) /\
  (forall p, is_Some (node_map s !! p) -> p ∈ open_set s \/ p ∈ closed_set s) /\
  (forall current_node rest,
     heapq.heappop (__lt__ (node_map s)) (open_set s) = Some (current_node, rest) ->
     (position (node_map s !!! current_node) ∉ closed_set s) /\
     (forall s', loop_body w goal s current_node rest <> Skipped s')) /\
  (forall closed current nodes heap neighbor_pos neighbor_node,
     nodes !! neighbor_pos = Some neighbor_node ->
     let tentative_g_cost :=
       (g_cost (nodes !!! current) +
        _get_movement_cost w (position (nodes !!! current)) neighbor_pos)%float in
     let visited := visit_neighbor w goal closed current (nodes, heap) neighbor_pos in
     visited.2 = heap /\
     (forall p, p <> neighbor_pos -> visited.1 !! p = nodes !! p) /\
     if negb (bool_decide (neighbor_pos ∈ closed)) && _is_passable w neighbor_pos
        && (tentative_g_cost <? g_cost neighbor_node)%float
     then visited.1 !! neighbor_pos =
            Some {| position := position neighbor_node;
                    g_cost := tentative_g_cost;
                    h_cost := h_cost neighbor_node;
                    f_cost := (tentative_g_cost + h_cost neighbor_node)%float;
                    parent := Some current |}
     else visited.1 = nodes) /\
  (forall closed current nodes heap neighbor_pos,
     (visit_neighbor w goal closed current (nodes, heap) neighbor_pos).2 <> heap ->
     nodes !! neighbor_pos = None /\
     ((visit_neighbor w goal closed current (nodes, heap) neighbor_pos).2)
       ≡ₚ (neighbor_pos :: heap) /\
     is_Some ((visit_neighbor w goal closed current (nodes, heap) neighbor_pos).1
                !! neighbor_pos)) /\
  (forall closed current nodes heap neighbor_pos p,
     is_Some (nodes !! p) ->
     is_Some ((visit_neighbor w goal closed current (nodes, heap) neighbor_pos).1 !! p)).
Proof.
  intros Hreach. pose proof (search_reachable_inv _ _ _ _ Hreach) as Hinv.
  split_and!.
  - apply Hinv.
  - apply Hinv.
  - apply Hinv.
  - intros current_node rest Hpop.
    pose proof (loop_body_inv w goal start s current_node rest Hinv Hpop) as Hbody.
    apply heappop_perm in Hpop.
    assert (current_node ∈ open_set s) as Hin by (rewrite Hpop; apply list_elem_of_here).
    destruct (inv_open_nodes _ _ _ _ Hinv _ Hin) as [n Hn].
    destruct (inv_nodes _ _ _ _ Hinv _ _ Hn) as (Hpos & _).
    split.
    + rewrite (lookup_total_correct _ _ _ Hn), Hpos. by apply Hinv.
    + intros s' Hskip. by rewrite Hskip in Hbody.
  - intros closed current nodes heap neighbor_pos neighbor_node Hnode tentative_g_cost.
    unfold visit_neighbor. rewrite Hnode. fold tentative_g_cost.
    destruct (bool_decide (neighbor_pos ∈ closed)); simpl; [done|].
    destruct (_is_passable w neighbor_pos); simpl; [|done].
    destruct (tentative_g_cost <? g_cost neighbor_node)%float; simpl; [|done].
    split_and!; [done| |by rewrite lookup_insert_eq].
    intros p Hp. by rewrite lookup_insert_ne.
  - intros closed current nodes heap neighbor_pos. unfold visit_neighbor.
    destruct (_ || _); [done|].
    destruct (nodes !! neighbor_pos) as [neighbor_node|]; [by destruct (_ <? _)%float|].
    intros _. simpl. split_and!; [done|apply heappush_perm|].
    rewrite lookup_insert_eq. by eexists.
  - intros closed current nodes heap neighbor_pos p Hnode. unfold visit_neighbor.
    destruct (_ || _); [done|].
    destruct (nodes !! neighbor_pos) as [neighbor_node|] eqn:Hneighbor.
    + destruct (_ <? _)%float; [|done]. simpl.
      destruct (decide (neighbor_pos = p)) as [->|Hp];
        [rewrite lookup_insert_eq; by eexists|by rewrite lookup_insert_ne].
    + simpl. destruct (decide (neighbor_pos = p)) as [->|Hp];
        [rewrite lookup_insert_eq; by eexists|by rewrite lookup_insert_ne].
Qed.

Lemma open_set_no_duplicates_witness :
  let s := walled4_turn8 in
  let rest := [(1, 1, 0); (3, 0, 1); (1, 2, 0); (3, 1, 1); (2, 1, 1); (1, 3, 0);
               (2, 2, 1); (2, 3, 1); (1, 0, 0); (2, 0, 1)] in
  let visited :=
    visit_neighbor walled4 (3, 0, 1) (closed_set s ∪ {[(3, 2, 1)]}) (3, 2, 1)
                   (node_map s, rest) (3, 1, 1) in
  heapq.heappop (__lt__ (node_map s)) (open_set s) = Some ((3, 2, 1), rest) /\
  g_cost <$> (node_map s !! (3, 1, 1)) = Some 4.8279999999999994%float /\
  NoDup (open_set s) /\
  ((3, 2, 1) ∉ closed_set s) /\
  visited.2 = rest /\
  g_cost <$> (visited.1 !! (3, 1, 1)) = Some 4%float /\
  f_cost <$> (visited.1 !! (3, 1, 1)) = Some 5%float /\
  parent <$> (visited.1 !! (3, 1, 1)) = Some (Some (3, 2, 1)).
Proof.
  intros s rest visited.
  assert (heapq.heappop (__lt__ (node_map s)) (open_set s) = Some ((3, 2, 1), rest))
    as Hpop by (vm_compute; reflexivity).
  destruct (node_map s !! (3, 1, 1)) as [neighbor_node|] eqn:Hnode;
    [|by vm_compute in Hnode].
  destruct (open_set_no_duplicates walled4 (3, 0, 1) (3, 3, 0) s)
    as (Hnodup & _ & _ & Hnext & Hvisit & _).
  { apply (turns_reachable _ _ _ 8 (search_init (3, 0, 1) (3, 3, 0)));
      [apply search_reachable_init | vm_compute; reflexivity]. }
  destruct (Hnext _ _ Hpop) as (Hopen & _).
  destruct (Hvisit (closed_set s ∪ {[(3, 2, 1)]}) (3, 2, 1) (node_map s) rest
              (3, 1, 1) neighbor_node Hnode) as (Hheap & _ & Hupdate).
  fold visited in Hheap, Hupdate.
  assert (neighbor_node =
    {| position := (3, 1, 1); g_cost := 4.8279999999999994; h_cost := 1;
       f_cost := 5.8279999999999994; parent := Some (3, 1, 0) |}) as ->.
  { apply (inj Some). rewrite <- Hnode. vm_compute. reflexivity. }
  match type of Hupdate with
  | if ?cheaper then _ else _ =>
      assert (cheaper = true) as Hcheaper by (vm_compute; reflexivity);
      rewrite Hcheaper in Hupdate
  end.
  split_and!; [exact Hpop | reflexivity | exact Hnodup | | exact Hheap | ..].
  - replace (3, 2, 1) with (position (node_map s !!! (3, 2, 1)))
      by (vm_compute; reflexivity). exact Hopen.
  - rewrite Hupdate. vm_compute. reflexivity.
  - rewrite Hupdate. vm_compute. reflexivity.
  - rewrite Hupdate. reflexivity.
Defined.

(** * Further properties *)

(** ** The tiles of a world *)

Lemma set_tile_size w x y z tile :
  WorldState.size (WorldState.set_tile w x y z tile) = WorldState.size w /\
  WorldState.z_levels (WorldState.set_tile w x y z tile) = WorldState.z_levels w.
Proof. unfold WorldState.set_tile. by destruct (WorldState.is_valid_coordinate _ _ _ _). Qed.

Lemma set_tile_valid w x y z tile x' y' z' :
  WorldState.is_valid_coordinate (WorldState.set_tile w x y z tile) x' y' z' =
  WorldState.is_valid_coordinate w x' y' z'.
Proof.
  unfold WorldState.is_valid_coordinate.
  by destruct (set_tile_size w x y z tile) as [-> ->].
Qed.

Lemma is_valid_coordinate_true w x y z :
  WorldState.is_valid_coordinate w x y z = true <->
  0 <= x < WorldState.size w /\ 0 <= y < WorldState.size w /\ 0 <= z < WorldState.z_levels w.
Proof.
  unfold WorldState.is_valid_coordinate.
  rewrite !andb_true_iff, !bool_decide_eq_true. tauto.
Qed.

Lemma well_formed_lookup w x y z :
  well_formed w -> WorldState.is_valid_coordinate w x y z = true ->
  exists row col tile,
    WorldState.tiles w !! Z.to_nat x = Some row /\
    row !! Z.to_nat y = Some col /\ col !! Z.to_nat z = Some tile.
Proof.
  intros [Hlen Hrows] (Hx & Hy & Hz)%is_valid_coordinate_true.
  destruct (lookup_lt_is_Some_2 (WorldState.tiles w) (Z.to_nat x)) as [row Hrow]; [lia|].
  destruct (proj1 (Forall_lookup _ _) Hrows _ _ Hrow) as [Hrowlen Hcols].
  destruct (lookup_lt_is_Some_2 row (Z.to_nat y)) as [col Hcol]; [lia|].
  pose proof (proj1 (Forall_lookup _ _) Hcols _ _ Hcol) as Hcollen. simpl in Hcollen.
  destruct (lookup_lt_is_Some_2 col (Z.to_nat z)) as [tile Htile]; [lia|].
  by exists row, col, tile.
Qed.

Lemma get_set_tile_eq w x y z tile :
  well_formed w ->
  WorldState.is_valid_coordinate w x y z = true ->
  WorldState.get_tile (WorldState.set_tile w x y z tile) x y z = tile.
Proof.
  intros Hwf Hvalid.
  destruct (well_formed_lookup w x y z Hwf Hvalid) as (row & col & old & Hrow & Hcol & Hold).
  unfold WorldState.get_tile. rewrite set_tile_valid, Hvalid. simpl.
  unfold WorldState.set_tile. rewrite Hvalid. simpl.
  rewrite list_lookup_alter_eq, Hrow. simpl.
  rewrite list_lookup_alter_eq, Hcol. simpl.
  rewrite list_lookup_insert_eq by (by eapply lookup_lt_Some). done.
Qed.

(** X1.  In a world of the shape the constructor gives, a tile written
    with [set_tile] at a coordinate within bounds is the tile [get_tile]
    reads there. *)
Theorem get_tile_set_tile w x y z tile :
  well_formed w ->
  WorldState.is_valid_coordinate w x y z = true ->
  WorldState.get_tile (WorldState.set_tile w x y z tile) x y z = tile.
Proof. apply get_set_tile_eq. Qed.

Lemma set_tile_spec w x y z tile :
  (forall x' y' z', (x', y', z') <> (x, y, z) ->
     WorldState.get_tile (WorldState.set_tile w x y z tile) x' y' z' =
     WorldState.get_tile w x' y' z') /\
  (forall x' y' z',
     WorldState.is_valid_coordinate (WorldState.set_tile w x y z tile) x' y' z' =
     WorldState.is_valid_coordinate w x' y' z') /\
  (well_formed w -> well_formed (WorldState.set_tile w x y z tile)) /\
  (WorldState.is_valid_coordinate w x y z = false -> WorldState.set_tile w x y z tile = w).
Proof.
  split_and!.
  - intros x' y' z' Hne. unfold WorldState.get_tile. rewrite set_tile_valid.
    destruct (WorldState.is_valid_coordinate w x' y' z') eqn:Hvalid'; [|done]. simpl.
    unfold WorldState.set_tile.
    destruct (WorldState.is_valid_coordinate w x y z) eqn:Hvalid; [|done]. simpl.
    apply is_valid_coordinate_true in Hvalid as (Hx & Hy & Hz).
    apply is_valid_coordinate_true in Hvalid' as (Hx' & Hy' & Hz').
    destruct (decide (x' = x)) as [->|Hxne].
    2: { rewrite list_lookup_alter_ne by lia. done. }
    rewrite list_lookup_alter_eq. destruct (WorldState.tiles w !! Z.to_nat x) as [row|]; [|done].
    simpl. destruct (decide (y' = y)) as [->|Hyne].
    2: { rewrite list_lookup_alter_ne by lia. done. }
    rewrite list_lookup_alter_eq. destruct (row !! Z.to_nat y) as [col|]; [|done].
    simpl. rewrite list_lookup_insert_ne; [done|]. intros Heq. apply Hne. f_equal. lia.
  - intros x' y' z'. apply set_tile_valid.
  - intros [Hlen Hrows]. unfold WorldState.set_tile.
    destruct (WorldState.is_valid_coordinate w x y z); [|done]. split; simpl.
    + by rewrite length_alter.
    + apply Forall_alter; [done|]. intros row _ [Hrowlen Hcols]. split.
      * by rewrite length_alter.
      * apply Forall_alter; [done|]. intros col _ Hcollen. by rewrite length_insert.
  - intros Hvalid. unfold WorldState.set_tile. by rewrite Hvalid.
Qed.

(** X2.  [set_tile] changes the tile at its coordinate and nothing else:
    every other coordinate reads as before, the bounds stay, the shape
    stays, and out of bounds the world is returned as it is. *)
Theorem set_tile_elsewhere w x y z tile :
  (forall x' y' z', (x', y', z') <> (x, y, z) ->
     WorldState.get_tile (WorldState.set_tile w x y z tile) x' y' z' =
     WorldState.get_tile w x' y' z') /\
  (forall x' y' z',
     WorldState.is_valid_coordinate (WorldState.set_tile w x y z tile) x' y' z' =
     WorldState.is_valid_coordinate w x' y' z') /\
  (well_formed w -> well_formed (WorldState.set_tile w x y z tile)) /\
  (WorldState.is_valid_coordinate w x y z = false -> WorldState.set_tile w x y z tile = w).
Proof. apply set_tile_spec. Qed.

Lemma well_formed_init size z_levels : well_formed (WorldState.__init__ size z_levels).
Proof.
  split; simpl; [by rewrite length_replicate|].
  apply Forall_replicate. split; [by rewrite length_replicate|].
  apply Forall_replicate. by rewrite length_replicate.
Qed.

(** X3.  The world the constructor builds has the shape [set_tile] keeps,
    and [get_tile] reads the default tile at every coordinate of it, within
    bounds or not: empty, dry, open. *)
Theorem get_tile_init size z_levels x y z :
  well_formed (WorldState.__init__ size z_levels) /\
  WorldState.get_tile (WorldState.__init__ size z_levels) x y z = Tile.default /\
  _is_passable (WorldState.__init__ size z_levels) (x, y, z) = true.
Proof.
  assert (WorldState.get_tile (WorldState.__init__ size z_levels) x y z = Tile.default) as Hget.
  { unfold WorldState.get_tile.
    destruct (WorldState.is_valid_coordinate _ x y z) eqn:Hvalid; [|done]. simpl.
    destruct (replicate _ _ !! Z.to_nat x) as [row|] eqn:Hrow; [|done].
    apply lookup_replicate in Hrow as [-> _]. simpl.
    destruct (replicate _ _ !! Z.to_nat y) as [col|] eqn:Hcol; [|done].
    apply lookup_replicate in Hcol as [-> _]. simpl.
    destruct (replicate _ _ !! Z.to_nat z) as [tile|] eqn:Htile; [|done].
    by apply lookup_replicate in Htile as [-> _]. }
  split_and!; [apply well_formed_init|done|].
  unfold _is_passable. by rewrite Hget.
Qed.

Lemma find_surface_loop_highest w x y n :
  let r := find_surface_loop w x y n in
  0 <= r <= Z.max 0 (Z.of_nat n - 1) /\
  (forall z, r < z < Z.of_nat n ->
     Tile.material (WorldState.get_tile w x y z) = Constants.TILE_EMPTY) /\
  (Tile.material (WorldState.get_tile w x y r) = Constants.TILE_EMPTY ->
   r = 0 /\
   forall z, 0 <= z < Z.of_nat n ->
     Tile.material (WorldState.get_tile w x y z) = Constants.TILE_EMPTY).
Proof.
  induction n as [|n (Hrange & Habove & Hempty)]; cbn [find_surface_loop]; cbv zeta.
  { split; [lia|]. split; [intros; lia|]. intros _. split; [done|intros; lia]. }
  case_bool_decide as Hsolid.
  - split; [lia|]. split; [intros; lia|]. intros Hnone. by destruct Hsolid.
  - split; [lia|]. split.
    + intros z Hz. destruct (decide (z = Z.of_nat n)) as [->|Hne]; [done|].
      apply Habove. lia.
    + intros Hnone. destruct (Hempty Hnone) as [Hzero Hall]. split; [done|].
      intros z Hz. destruct (decide (z = Z.of_nat n)) as [->|Hne]; [done|].
      apply Hall. lia.
Qed.

(** X4.  [find_surface_level] returns a level between 0 and the top one;
    every level above it is empty at [(x, y)]; and when the tile at the
    level returned is empty itself, the level is 0 and the whole column is
    empty.  So the level returned is the highest one that is not empty, and
    0 stands for a column without any. *)
Theorem find_surface_level_highest w x y :
  let r := find_surface_level w x y in
  0 <= r <= Z.max 0 (WorldState.z_levels w - 1) /\
  (forall z, r < z < WorldState.z_levels w ->
     Tile.material (WorldState.get_tile w x y z) = Constants.TILE_EMPTY) /\
  (Tile.material (WorldState.get_tile w x y r) = Constants.TILE_EMPTY ->
   r = 0 /\
   forall z, 0 <= z < WorldState.z_levels w ->
     Tile.material (WorldState.get_tile w x y z) = Constants.TILE_EMPTY).
Proof.
  destruct (find_surface_loop_highest w x y (Z.to_nat (WorldState.z_levels w)))
    as (Hrange & Habove & Hempty).
  unfold find_surface_level. split; [lia|]. split.
  - intros z Hz. apply Habove. lia.
  - intros Hnone. destruct (Hempty Hnone) as [Hzero Hall]. split; [done|].
    intros z Hz. apply Hall. lia.
Qed.

(** ** The cost of a tile *)

(** X5.  For a tile whose water level is at most 7, the top of the scale:
    when it can be entered its movement cost lies between 1.0 and 4.5, and
    when it cannot the cost is infinite. *)
Theorem get_movement_cost_range tile :
  Tile.water_level tile <= 7 ->
  if Tile.is_passable tile
  then PrimFloat.leb 1 (Tile.get_movement_cost tile) = true /\
       PrimFloat.leb (Tile.get_movement_cost tile) 4.5 = true
  else Tile.get_movement_cost tile = infinity.
Proof.
  destruct tile as [material water_level]. simpl. intros Hwater.
  unfold Tile.is_passable, Tile.get_movement_cost, Tile.is_passable. simpl.
  unfold Constants.TILE_EMPTY, Constants.TILE_SOIL.
  destruct (decide (water_level <= 0)) as [Hdry|Hwet].
  - rewrite (bool_decide_true (water_level < 7)) by lia.
    rewrite (bool_decide_false (water_level > 0)) by lia. rewrite orb_true_r. simpl.
    case_bool_decide; by vm_compute.
  - assert (water_level = 1 \/ water_level = 2 \/ water_level = 3 \/ water_level = 4 \/
            water_level = 5 \/ water_level = 6 \/ water_level = 7) as Hcases by lia.
    destruct (decide (material = 0)) as [->|Hmaterial].
    + rewrite bool_decide_true by done. simpl.
      rewrite (bool_decide_true (water_level > 0)) by lia.
      destruct Hcases as [->|[->|[->|[->|[->|[->| ->]]]]]]; by vm_compute.
    + rewrite (bool_decide_false (material = 0)) by done. simpl.
      destruct (decide (water_level = 7)) as [->|Hbelow]; [done|].
      rewrite (bool_decide_true (water_level < 7)) by lia. simpl.
      rewrite (bool_decide_true (water_level > 0)) by lia.
      case_bool_decide;
        destruct Hcases as [->|[->|[->|[->|[->|[->| ->]]]]]]; try done; by vm_compute.
Qed.

Lemma get_movement_cost_range_witness :
  PrimFloat.leb 1 (Tile.get_movement_cost (Tile.mk Constants.TILE_SOIL 3)) = true /\
  PrimFloat.leb (Tile.get_movement_cost (Tile.mk Constants.TILE_SOIL 3)) 4.5 = true.
Proof.
  apply (get_movement_cost_range (Tile.mk Constants.TILE_SOIL 3)). simpl. lia.
Defined.

Lemma get_tile_set_tile_witness :
  WorldState.get_tile (WorldState.set_tile (WorldState.__init__ 4 2) 3 2 0 wall) 3 2 0 = wall.
Proof.
  apply (get_tile_set_tile (WorldState.__init__ 4 2) 3 2 0 wall).
  - apply well_formed_init.
  - reflexivity.
Defined.

(** ** The moves from a position *)

Lemma _is_valid_position_true w x y z :
  _is_valid_position w (x, y, z) = true <->
  0 <= x < WorldState.size w /\ 0 <= y < WorldState.size w /\ 0 <= z < WorldState.z_levels w.
Proof. apply is_valid_coordinate_true. Qed.

(** What [_get_neighbors] gives from a position within bounds. *)
Lemma _get_neighbors_spec w x y z :
  _is_valid_position w (x, y, z) = true ->
  (length (_get_neighbors w (x, y, z)) <= 10)%nat /\
  NoDup (_get_neighbors w (x, y, z)) /\
  forall x' y' z', (x', y', z') ∈ _get_neighbors w (x, y, z) ->
    _is_valid_position w (x', y', z') = true /\
    (x', y', z') <> (x, y, z) /\
    Z.abs (x' - x) <= 1 /\ Z.abs (y' - y) <= 1 /\ Z.abs (z' - z) <= 1 /\
    (z' <> z -> x' = x /\ y' = y /\ _is_passable w (x', y', z') = true).
Proof.
  intros Hvalid.
  destruct (proj1 (_is_valid_position_true w x y z) Hvalid) as (Hx & Hy & Hz).
  unfold _get_neighbors.
  set (flat := filter _ _).
  assert (forall x' y' z', (x', y', z') ∈ flat ->
    _is_valid_position w (x', y', z') = true /\ z' = z /\
    (x', y') <> (x, y) /\ Z.abs (x' - x) <= 1 /\ Z.abs (y' - y) <= 1) as Hflat.
  { intros x' y' z' [Hv Hin]%list_elem_of_filter. split; [done|]. clear Hv.
    simpl in Hin. rewrite !elem_of_cons, elem_of_nil in Hin.
    destruct Hin as [Heq|[Heq|[Heq|[Heq|[Heq|[Heq|[Heq|[Heq|[]]]]]]]]];
      simplify_eq; (split; [done|split; [intros [= ? ?]; lia|lia]]). }
  assert (NoDup flat /\ (length flat <= 8)%nat) as [Hnodup Hlen].
  { split.
    - apply NoDup_filter. simpl.
      repeat (apply NoDup_cons; split;
        [rewrite ?elem_of_cons, elem_of_nil; intros Hin;
         repeat (destruct Hin as [Heq|Hin]; [injection Heq; intros; lia|]); done|]).
      apply NoDup_nil_2.
    - etrans; [apply length_filter|]. done. }
  clearbody flat.
  set (up := if bool_decide (z < WorldState.z_levels w - 1)
             then if _can_move_vertically w (x, y, z) (x, y, z + 1)
                  then flat ++ [(x, y, z + 1)] else flat
             else flat).
  assert ((length up <= 9)%nat /\ NoDup up /\
    forall x' y' z', (x', y', z') ∈ up ->
      _is_valid_position w (x', y', z') = true /\ (x', y', z') <> (x, y, z) /\
      Z.abs (x' - x) <= 1 /\ Z.abs (y' - y) <= 1 /\ Z.abs (z' - z) <= 1 /\
      z' <> z - 1 /\
      (z' <> z -> x' = x /\ y' = y /\ _is_passable w (x', y', z') = true))
    as (Hlen_up & Hnodup_up & Hup).
  { assert (forall x' y' z', (x', y', z') ∈ flat ->
      _is_valid_position w (x', y', z') = true /\ (x', y', z') <> (x, y, z) /\
      Z.abs (x' - x) <= 1 /\ Z.abs (y' - y) <= 1 /\ Z.abs (z' - z) <= 1 /\
      z' <> z - 1 /\
      (z' <> z -> x' = x /\ y' = y /\ _is_passable w (x', y', z') = true)) as Hflat'.
    { intros x' y' z' (Hv & -> & Hne & Hdx & Hdy)%Hflat.
      split_and!; [done|intros [= ? ?]; by apply Hne; f_equal|lia..|done]. }
    unfold up. case_bool_decide as Htop; [|split_and!; [lia|done..]].
    destruct (_can_move_vertically w (x, y, z) (x, y, z + 1)) eqn:Hmove;
      [|split_and!; [lia|done..]].
    split_and!.
    - rewrite length_app. simpl. lia.
    - apply NoDup_app. split_and!; [done| |apply NoDup_singleton].
      intros [[x' y'] z'] (_ & -> & _)%Hflat [= _ _ ?]%list_elem_of_singleton. lia.
    - intros x' y' z' [Hin|[= -> -> ->]%list_elem_of_singleton]%elem_of_app;
        [by apply Hflat'|].
      split_and!; [apply _is_valid_position_true; lia|intros [= ?]; lia|lia..|].
      intros _. split_and!; [done..|].
      unfold _can_move_vertically in Hmove. unfold _is_passable.
      by destruct (Tile.is_passable _). }
  fold up. clearbody up.
  case_bool_decide as Hbottom; [|split_and!; [lia|done|]].
  2: { intros x' y' z' (? & ? & ? & ? & ? & _ & ?)%Hup. done. }
  destruct (_can_move_vertically w (x, y, z) (x, y, z - 1)) eqn:Hmove;
    [|split_and!; [lia|done|]].
  2: { intros x' y' z' (? & ? & ? & ? & ? & _ & ?)%Hup. done. }
  split_and!.
  - rewrite length_app. simpl. lia.
  - apply NoDup_app. split_and!; [done| |apply NoDup_singleton].
    intros [[x' y'] z'] (_ & _ & _ & _ & _ & Hne & _)%Hup [= _ _ ?]%list_elem_of_singleton.
    done.
  - intros x' y' z' [Hin|[= -> -> ->]%list_elem_of_singleton]%elem_of_app.
    + apply Hup in Hin as (? & ? & ? & ? & ? & _ & ?). done.
    + split_and!; [apply _is_valid_position_true; lia|intros [= ?]; lia|lia..|].
      intros _. split_and!; [done..|].
      unfold _can_move_vertically in Hmove. unfold _is_passable.
      by destruct (Tile.is_passable _).
Qed.

(** X6.  From a position within bounds [_get_neighbors] gives at most ten
    positions, no position twice; each is within bounds, is not the
    position itself and differs from it by at most one step along every
    axis; a neighbour on another level is straight above or below and can
    be entered. *)
Theorem _get_neighbors_adjacent w x y z :
  _is_valid_position w (x, y, z) = true ->
  (length (_get_neighbors w (x, y, z)) <= 10)%nat /\
  NoDup (_get_neighbors w (x, y, z)) /\
  forall x' y' z', (x', y', z') ∈ _get_neighbors w (x, y, z) ->
    _is_valid_position w (x', y', z') = true /\
    (x', y', z') <> (x, y, z) /\
    Z.abs (x' - x) <= 1 /\ Z.abs (y' - y) <= 1 /\ Z.abs (z' - z) <= 1 /\
    (z' <> z -> x' = x /\ y' = y /\ _is_passable w (x', y', z') = true).
Proof. apply _get_neighbors_spec. Qed.

Lemma _get_neighbors_adjacent_witness :
  Nat.le (length (_get_neighbors walled4 (3, 3, 0))) 10 /\
  NoDup (_get_neighbors walled4 (3, 3, 0)).
Proof.
  destruct (_get_neighbors_adjacent walled4 3 3 0) as (Hlen & Hnodup & _); [reflexivity|].
  split; [exact Hlen | exact Hnodup].
Defined.

(** ** The terrain under a search *)

Lemma _get_neighbors_valid w p q :
  _is_valid_position w p = true -> q ∈ _get_neighbors w p ->
  _is_valid_position w q = true.
Proof.
  destruct p as [[x y] z], q as [[x' y'] z']. intros Hvalid Hin.
  by destruct (_get_neighbors_spec w x y z Hvalid) as (_ & _ & Hall), (Hall _ _ _ Hin).
Qed.

Lemma search_init_route w goal start :
  _is_valid_position w start = true -> _is_passable w start = true ->
  route_inv w (node_map (search_init goal start)).
Proof.
  intros Hvalid Hpass p n. unfold search_init. simpl.
  intros [<- <-]%lookup_singleton_Some. by simpl.
Qed.

(** Lines 79-101 for one neighbour keep [route_inv]. *)
Lemma visit_neighbor_route w goal start closed current nodes heap neighbor_pos :
  current ∈ closed ->
  neighbor_pos ∈ _get_neighbors w current ->
  search_inv start heap closed nodes ->
  is_Some (nodes !! current) ->
  route_inv w nodes ->
  route_inv w (visit_neighbor w goal closed current (nodes, heap) neighbor_pos).1.
Proof.
  intros Hcur Hneighbor Hinv [c Hc] Hroute. unfold visit_neighbor.
  case_bool_decide as Hnp; simpl; [done|].
  destruct (_is_passable w neighbor_pos) eqn:Hpass; simpl; [|done].
  destruct (inv_nodes _ _ _ _ Hinv _ _ Hc) as (Hpos & _ & _).
  destruct (Hroute _ _ Hc) as (Hvalid & _ & _).
  rewrite (lookup_total_correct _ _ _ Hc), Hpos.
  assert (current <> neighbor_pos) as Hne by (by intros ->).
  assert (forall n : PathNode,
    parent n = Some current ->
    g_cost n = (g_cost c + _get_movement_cost w current neighbor_pos)%float ->
    route_inv w (<[neighbor_pos := n]> nodes)) as Hinsert.
  { intros n Hparent Hg p m Hm. destruct (decide (neighbor_pos = p)) as [<-|Hp].
    - rewrite lookup_insert_eq in Hm. injection Hm as <-.
      split_and!; [by eapply _get_neighbors_valid|done|]. rewrite Hparent.
      split; [done|]. exists c. by rewrite lookup_insert_ne.
    - rewrite lookup_insert_ne in Hm by done.
      destruct (Hroute _ _ Hm) as (Hv & Hp' & Hlink). split_and!; [done..|].
      destruct (parent m) as [q|] eqn:Hq; [|done].
      destruct Hlink as (Hadj & mq & Hmq & Hg'). split; [done|]. exists mq.
      split; [|done]. rewrite lookup_insert_ne; [done|]. intros <-.
      apply Hnp. by apply (inv_nodes _ _ _ _ Hinv _ _ Hm). }
  destruct (nodes !! neighbor_pos) as [neighbor_node|] eqn:Hlookup.
  - destruct (_ <? _)%float; simpl; [|done]. by apply Hinsert.
  - simpl. by apply Hinsert.
Qed.

Lemma visit_neighbors_route w goal start closed current neighbors nodes heap :
  current ∈ closed ->
  Forall (fun q => q ∈ _get_neighbors w current) neighbors ->
  search_inv start heap closed nodes ->
  is_Some (nodes !! current) ->
  route_inv w nodes ->
  route_inv w (foldl (visit_neighbor w goal closed current) (nodes, heap) neighbors).1.
Proof.
  intros Hcur Hall. revert nodes heap.
  induction Hall as [|neighbor_pos neighbors Hneighbor _ IH];
    intros nodes heap Hinv Hc Hroute; cbn [foldl]; [done|].
  pose proof (visit_neighbor_inv w goal start closed current nodes heap neighbor_pos
    Hcur Hinv) as Hinv'.
  pose proof (visit_neighbor_route w goal start closed current nodes heap neighbor_pos
    Hcur Hneighbor Hinv Hc Hroute) as Hroute'.
  destruct (visit_neighbor w goal closed current (nodes, heap) neighbor_pos)
    as [nodes1 heap1] eqn:Hvisit.
  apply IH; [done| |done].
  destruct (inv_closed _ _ _ _ Hinv' current Hcur) as (l & Hwalk & _).
  eapply walk_nodes; [done|]. destruct Hwalk; apply list_elem_of_here.
Qed.

(** Every state at the head of a turn satisfies [route_inv]. *)
Lemma search_reachable_route w goal start s :
  _is_valid_position w start = true -> _is_passable w start = true ->
  search_reachable w goal start s -> route_inv w (node_map s).
Proof.
  intros Hvalid Hpass.
  induction 1 as [|s current_node rest s' Hreach IH Hpop Hturn];
    [by apply search_init_route|].
  pose proof (search_reachable_inv _ _ _ _ Hreach) as Hinv.
  pose proof Hpop as Hperm%heappop_perm.
  pose proof (close_inv _ _ _ _ _ _ Hinv Hperm) as Hinv'.
  destruct (inv_open_nodes _ _ _ _ Hinv current_node) as [n Hn].
  { rewrite Hperm. apply list_elem_of_here. }
  destruct (inv_nodes _ _ _ _ Hinv _ _ Hn) as (Hpos & _ & _).
  unfold loop_body in Hturn. rewrite (lookup_total_correct _ _ _ Hn), Hpos in Hturn.
  case_bool_decide; [by injection Hturn as <-|].
  case_bool_decide; [done|].
  pose proof (visit_neighbors_route w goal start (closed_set s ∪ {[current_node]})
    current_node (_get_neighbors w current_node) (node_map s) rest) as Hloop.
  destruct (foldl _ _ _) as [nodes' open']. injection Hturn as <-. simpl.
  apply Hloop; [by apply elem_of_union_r, elem_of_singleton| |done|by eexists|done].
  by apply Forall_forall.
Qed.

(** A walk is decided by the nodes. *)
Lemma walk_unique nodes p l1 l2 : walk nodes p l1 -> walk nodes p l2 -> l1 = l2.
Proof.
  intros Hwalk. revert l2.
  induction Hwalk as [p n Hp Hn|p n q l Hp Hn Hnot Hwalk IH]; intros l2 Hwalk2;
    destruct Hwalk2 as [p n2 Hp2 Hn2|p n2 q2 l2 Hp2 Hn2 Hnot2 Hwalk2]; simplify_eq; [done|].
  f_equal. by apply IH.
Qed.

Lemma is_route_snoc w r q p :
  last r = Some q -> is_route w r = true ->
  p ∈ _get_neighbors w q -> _is_passable w p = true ->
  is_route w (r ++ [p]) = true.
Proof.
  intros Hlast Hroute Hadj Hpass. induction r as [|a [|b r] IH]; [done|..].
  - injection Hlast as ->. simpl. by rewrite bool_decide_true, Hpass.
  - cbn [app is_route] in *. apply andb_prop in Hroute as [Hhead Htail].
    rewrite Hhead. simpl. apply IH; [by rewrite last_cons_cons in Hlast|done].
Qed.

Lemma path_cost_from_snoc w g r q p :
  last r = Some q ->
  path_cost_from w g (r ++ [p]) = (path_cost_from w g r + _get_movement_cost w q p)%float.
Proof.
  revert g. induction r as [|a [|b r] IH]; intros g Hlast; [done|..].
  - by injection Hlast as ->.
  - cbn [app path_cost_from] in *. apply IH. by rewrite last_cons_cons in Hlast.
Qed.

(** Read from the start, a walk is a route on tiles that are within bounds
    and open, and its cost is the [g_cost] of the node it was walked from. *)
Lemma walk_route w nodes p l :
  route_inv w nodes -> walk nodes p l ->
  is_route w (reverse l) = true /\
  Forall (fun q => _is_valid_position w q = true /\ _is_passable w q = true) l /\
  forall n, nodes !! p = Some n -> path_cost w (reverse l) = g_cost n.
Proof.
  intros Hroute. induction 1 as [p n Hp Hn|p n q l Hp Hn Hnot Hwalk (IHr & IHv & IHc)].
  - destruct (Hroute _ _ Hp) as (Hv & Hpass & Hlink). rewrite Hn in Hlink.
    split_and!; [done|by repeat constructor|]. intros n' Hn'. by simplify_eq.
  - destruct (Hroute _ _ Hp) as (Hv & Hpass & Hlink). rewrite Hn in Hlink.
    destruct Hlink as (Hadj & m & Hm & Hg).
    assert (last (reverse l) = Some q) as Hlast.
    { rewrite last_reverse. by eapply walk_head. }
    rewrite reverse_cons. split_and!.
    + by eapply is_route_snoc.
    + by constructor.
    + intros n' Hn'. simplify_eq. unfold path_cost in *.
      rewrite (path_cost_from_snoc _ _ _ q) by done. by rewrite (IHc m Hm).
Qed.

Lemma walk_closed start heap closed nodes p l :
  search_inv start heap closed nodes -> walk nodes p l ->
  forall q, q ∈ l -> q = p \/ q ∈ closed.
Proof.
  intros Hinv. induction 1 as [p n Hp Hn|p n q l Hp Hn Hnot Hwalk IH]; intros r Hr.
  - apply list_elem_of_singleton in Hr. by left.
  - apply elem_of_cons in Hr as [->|Hr]; [by left|]. right.
    destruct (inv_nodes _ _ _ _ Hinv _ _ Hp) as (_ & _ & Hparent).
    destruct (IH r Hr) as [->|Hclosed]; [by apply Hparent|done].
Qed.

(** The closed set grows by at most one position a turn. *)
Lemma search_reachable_closed_size w goal start s :
  search_reachable w goal start s -> Z.of_nat (size (closed_set s)) <= iterations s.
Proof.
  induction 1 as [|s current_node rest s' Hreach IH Hpop Hturn]; [done|].
  unfold loop_body in Hturn.
  case_bool_decide as Hclosed; [injection Hturn as <-; simpl; lia|].
  case_bool_decide; [done|].
  destruct (foldl _ _ _) as [nodes' open']. injection Hturn as <-. simpl.
  rewrite size_union by (by apply disjoint_singleton_r). rewrite size_singleton. lia.
Qed.

(** A search that finds a path: the state its last turn began with. *)
Lemma search_loop_found w goal start n s path :
  search_reachable w goal start s ->
  (search_loop w goal n s).2 = Returns (Some path) ->
  exists s' l,
    search_reachable w goal start s' /\
    walk (node_map s') goal l /\ last l = Some start /\ path = reverse l /\
    node_map (search_loop w goal n s).1 = node_map s' /\
    iterations s <= iterations s' < iterations s + Z.of_nat n.
Proof.
  revert s. induction n as [|n IH]; intros s Hreach; cbn [search_loop]; [done|].
  destruct (heapq.heappop _ _) as [[current_node rest]|] eqn:Hpop; [|done].
  pose proof (loop_body_inv w goal start s current_node rest
    (search_reachable_inv _ _ _ _ Hreach) Hpop) as Hbody.
  pose proof (loop_body_iterations w goal s current_node rest) as Hcount.
  destruct (loop_body w goal s current_node rest) as [s1|s1 r|s1] eqn:Hturn.
  - done.
  - destruct Hbody as (_ & l & Hwalk & Hlast & ->). simpl. intros [= <-].
    exists s, l. split_and!; try done; [|lia..].
    unfold loop_body in Hturn. repeat case_bool_decide; try done.
    + by injection Hturn as <- _.
    + by destruct (foldl _ _ _).
  - intros Hfound. simpl in Hcount.
    destruct (IH s1) as (s' & l & ? & ? & ? & ? & ? & ?); [|done|].
    { eapply search_reachable_turn; [done..|]. by rewrite Hturn. }
    exists s', l. split_and!; try done; lia.
Qed.

(** What is known of a path that [find_path] returns, cached or not. *)
Lemma find_path_found self start goal path :
  reachable self ->
  (find_path self start goal).1 = Returns (Some path) ->
  _is_valid_position (world_state self) start = true /\
  _is_passable (world_state self) start = true /\
  (search (world_state self) (max_iterations self) start goal).2 = Returns (Some path).
Proof.
  intros (Hsound & _)%reachable_inv Hfound.
  destruct (find_path_cases self start goal)
    as [(path' & Hget & Hcall)|[(_ & Hcall)|(path' & _ & Hs & _ & Hps & _ & Hsearch & _ & _ &
         [(self' & _ & Hcall)|(_ & Hcall)])]];
    rewrite Hcall in Hfound; simpl in Hfound; try done; injection Hfound as ->; [|done].
  by apply dict_get_elem_of, Hsound in Hget as (? & _ & ? & _ & ?).
Qed.

(** A path found by a search from an open start within bounds. *)
Lemma search_found w max_iterations start goal path :
  _is_valid_position w start = true -> _is_passable w start = true ->
  (search w max_iterations start goal).2 = Returns (Some path) ->
  is_route w path = true /\
  Forall (fun q => _is_valid_position w q = true /\ _is_passable w q = true) path /\
  NoDup path /\
  Z.of_nat (length path) <= max_iterations /\
  g_cost (node_map (search w max_iterations start goal).1 !!! goal) = path_cost w path.
Proof.
  intros Hvalid Hpass Hfound.
  destruct (search_loop_found w goal start (Z.to_nat max_iterations)
    (search_init goal start) path) as (s & l & Hreach & Hwalk & _ & -> & Hnodes & Hcount);
    [apply search_reachable_init|done|].
  pose proof (search_reachable_inv _ _ _ _ Hreach) as Hinv.
  pose proof (search_reachable_route _ _ _ _ Hvalid Hpass Hreach) as Hroute.
  destruct (walk_route _ _ _ _ Hroute Hwalk) as (Hr & Hv & Hcost).
  destruct (walk_nodes _ _ _ goal Hwalk) as [n Hn].
  { destruct Hwalk; apply list_elem_of_here. }
  split_and!.
  - done.
  - by apply Forall_reverse.
  - rewrite reverse_Permutation. by eapply walk_NoDup.
  - rewrite length_reverse.
    pose proof (search_reachable_closed_size _ _ _ _ Hreach) as Hsize.
    assert (length l <= size (closed_set s ∪ {[goal]}))%nat as Hlen.
    { rewrite <- (size_list_to_set (C := gset Coord) l) by (by eapply walk_NoDup).
      apply subseteq_size. intros q Hq%elem_of_list_to_set.
      destruct (walk_closed _ _ _ _ _ _ Hinv Hwalk q Hq) as [->|Hc];
        [by apply elem_of_union_r, elem_of_singleton|by apply elem_of_union_l]. }
    pose proof (size_union_alt (closed_set s) {[goal]}) as Hunion.
    assert (size ({[goal]} ∖ closed_set s : gset Coord) <= 1)%nat as Hone.
    { etrans; [apply (subseteq_size _ {[goal]}); by apply subseteq_difference_l|].
      by rewrite size_singleton. }
    change (iterations (search_init goal start)) with 0 in Hcount. lia.
  - unfold search. rewrite Hnodes, (lookup_total_correct _ _ _ Hn). symmetry.
    by apply Hcost.
Qed.

(** ** Paths that [find_path] returns *)

(** A cached path after a tile change: the diagonal of [flat5] with a wall
    set on its middle cell is still what [find_path] returns, and it is no
    route of the world any more. *)
Example cached_path_through_wall :
  let self :=
    terrain_changed (find_path (__init__ flat5 1000) (0, 0, 0) (4, 4, 0)).2 2 2 0 wall in
  let path := [(0, 0, 0); (1, 1, 0); (2, 2, 0); (3, 3, 0); (4, 4, 0)] in
  (find_path self (0, 0, 0) (4, 4, 0)).1 = Returns (Some path) /\
  _is_passable (world_state self) (2, 2, 0) = false /\
  is_route (world_state self) path = false.
Proof. vm_compute. split_and!; reflexivity. Qed.

(** X7.  A path that [find_path] returns for a pair that is not in the
    cache, in whatever state the pathfinder is, stays within bounds on tiles
    that can be entered, and each of its steps is one of the moves
    [_get_neighbors] gives from the cell before, in the world as it is at
    the call: no searched path goes through a wall or jumps.  The same holds
    of every path returned, cached or not, by a pathfinder in a state that
    the constructor and the public methods reach without a tile change in
    between; a cached path returned after a tile change need not be a
    route. *)
Theorem returned_path_is_route self start goal path :
  dict.get (path_cache self) (start, goal) = None \/ reachable self ->
  (find_path self start goal).1 = Returns (Some path) ->
  is_route (world_state self) path = true /\
  Forall (fun q => _is_valid_position (world_state self) q = true /\
                   _is_passable (world_state self) q = true) path.
Proof.
  intros Hstate Hfound.
  assert (_is_valid_position (world_state self) start = true /\
          _is_passable (world_state self) start = true /\
          (search (world_state self) (max_iterations self) start goal).2 =
            Returns (Some path)) as (Hvalid & Hpass & Hsearch).
  { destruct Hstate as [Hget|Hreach]; [|by apply find_path_found].
    destruct (find_path_cases self start goal)
      as [(path' & Hget' & _)|[(_ & Hcall)|(path' & _ & Hs & _ & Hps & _ & Hsearch & _ & _ &
           [(self' & _ & Hcall)|(_ & Hcall)])]];
      [congruence|by rewrite Hcall in Hfound|..|by rewrite Hcall in Hfound].
    rewrite Hcall in Hfound. simpl in Hfound. by injection Hfound as <-. }
  by destruct (search_found _ _ _ _ _ Hvalid Hpass Hsearch) as (? & ? & _).
Qed.

Lemma returned_path_is_route_witness :
  let self :=
    terrain_changed (find_path (__init__ flat5 1000) (0, 0, 0) (4, 4, 0)).2 2 2 0 wall in
  is_route walled4 [(3, 3, 0); (2, 2, 0); (2, 1, 0); (3, 0, 0); (3, 0, 1)] = true /\
  is_route (world_state self) [(1, 1, 0); (2, 1, 0); (3, 2, 0); (3, 3, 0)] = true.
Proof.
  intros self. split.
  - apply (returned_path_is_route (__init__ walled4 1000) (3, 3, 0) (3, 0, 1)).
    + right. apply reachable_init.
    + vm_compute. reflexivity.
  - apply (returned_path_is_route self (1, 1, 0) (3, 3, 0)).
    + left. reflexivity.
    + vm_compute. reflexivity.
Defined.

(** X8.  For a pathfinder built through the public methods, a path that
    [find_path] returns passes no cell twice. *)
Theorem returned_path_NoDup self start goal path :
  reachable self ->
  (find_path self start goal).1 = Returns (Some path) ->
  NoDup path.
Proof.
  intros Hreach (Hvalid & Hpass & Hsearch)%find_path_found; [|done].
  by destruct (search_found _ _ _ _ _ Hvalid Hpass Hsearch) as (_ & _ & ? & _).
Qed.

Lemma returned_path_NoDup_witness :
  NoDup [(3, 3, 0); (2, 2, 0); (2, 1, 0); (3, 0, 0); (3, 0, 1)].
Proof.
  apply (returned_path_NoDup (__init__ walled4 1000) (3, 3, 0) (3, 0, 1)).
  - apply reachable_init.
  - vm_compute. reflexivity.
Defined.

(** X9.  For a pathfinder built through the public methods, a path that
    [find_path] returns has at most [max_iterations] cells: every cell of it
    was popped in a turn of its own. *)
Theorem returned_path_length self start goal path :
  reachable self ->
  (find_path self start goal).1 = Returns (Some path) ->
  Z.of_nat (length path) <= max_iterations self.
Proof.
  intros Hreach (Hvalid & Hpass & Hsearch)%find_path_found; [|done].
  by destruct (search_found _ _ _ _ _ Hvalid Hpass Hsearch) as (_ & _ & _ & ? & _).
Qed.

Lemma returned_path_length_witness :
  Z.of_nat (length [(3, 3, 0); (2, 2, 0); (2, 1, 0); (3, 0, 0); (3, 0, 1)]) <= 14.
Proof.
  apply (returned_path_length (__init__ walled4 14) (3, 3, 0) (3, 0, 1)).
  - apply reachable_init.
  - vm_compute. reflexivity.
Defined.

(** X10.  When a search from an open start within bounds finds a path, the
    [g_cost] it holds for the goal is the cost of that path, the costs of
    its edges added up from the start: in-place updates of nodes never leave
    a node with a cost that its chain of parents does not have. *)
Theorem goal_g_cost_is_path_cost w max_iterations start goal path :
  _is_valid_position w start = true -> _is_passable w start = true ->
  (search w max_iterations start goal).2 = Returns (Some path) ->
  g_cost (node_map (search w max_iterations start goal).1 !!! goal) = path_cost w path.
Proof.
  intros Hvalid Hpass Hsearch.
  by destruct (search_found _ _ _ _ _ Hvalid Hpass Hsearch) as (_ & _ & _ & _ & ?).
Qed.

Lemma goal_g_cost_is_path_cost_witness :
  g_cost (node_map (search walled4 1000 (3, 3, 0) (3, 0, 1)).1 !!! (3, 0, 1)) =
  path_cost walled4 [(3, 3, 0); (2, 2, 0); (2, 1, 0); (3, 0, 0); (3, 0, 1)].
Proof.
  apply (goal_g_cost_is_path_cost walled4 1000 (3, 3, 0) (3, 0, 1)).
  - reflexivity.
  - reflexivity.
  - vm_compute. reflexivity.
Defined.

(** ** The cache over several calls *)

(** X11.  Once [find_path] has returned a path for a pair, the same call on
    the pathfinder it left returns the same path and changes nothing, and
    it does so too after any tile of the shared world has been changed: the
    cache is read before the terrain, so a cached path outlives the terrain
    it was found on until the cache is cleared. *)
Theorem find_path_again self start goal path self' :
  find_path self start goal = (Returns (Some path), self') ->
  find_path self' start goal = (Returns (Some path), self') /\
  forall x y z tile,
    find_path (terrain_changed self' x y z tile) start goal =
      (Returns (Some path), terrain_changed self' x y z tile).
Proof.
  intros Hcall.
  assert (dict.get (path_cache self') (start, goal) = Some path) as Hget.
  { destruct (find_path_cases self start goal)
      as [(path' & Hget & Hcall')|[(_ & Hcall')|(path' & _ & _ & _ & _ & _ & _ & _ & _ &
           [(self1 & Hstore & Hcall')|(_ & Hcall')])]];
      rewrite Hcall' in Hcall; simplify_eq; [done|].
    by apply _cache_path_returns in Hstore as (_ & _ & _ & ? & _). }
  split; [by apply find_path_cached|]. intros x y z tile. by apply find_path_cached.
Qed.

Lemma find_path_again_witness :
  let path := [(3, 3, 0); (2, 2, 0); (2, 1, 0); (3, 0, 0); (3, 0, 1)] in
  let self' := (find_path (__init__ walled4 1000) (3, 3, 0) (3, 0, 1)).2 in
  find_path (terrain_changed self' 2 2 0 wall) (3, 3, 0) (3, 0, 1) =
    (Returns (Some path), terrain_changed self' 2 2 0 wall).
Proof.
  intros path self'.
  apply (find_path_again (__init__ walled4 1000) (3, 3, 0) (3, 0, 1) path self').
  vm_compute. reflexivity.
Defined.

(** X12.  For a pathfinder built through the public methods, [clear_cache]
    gives the pathfinder the constructor gives for the same world and cap,
    and [reinitialize] the one it gives for the new world: after either, no
    earlier call has left a trace. *)
Theorem clear_cache_is_constructor self w :
  reachable self ->
  clear_cache self = __init__ (world_state self) (max_iterations self) /\
  reinitialize self w = __init__ w (max_iterations self) /\
  get_cache_size (clear_cache self) = 0 /\
  get_cache_size (reinitialize self w) = 0.
Proof.
  intros (_ & Hmax & _)%reachable_inv.
  unfold clear_cache, reinitialize, clear_cache, __init__. simpl. by rewrite Hmax.
Qed.

Lemma clear_cache_is_constructor_witness :
  clear_cache (find_path (__init__ flat5 1000) (0, 0, 0) (4, 4, 0)).2 = __init__ flat5 1000.
Proof.
  apply (clear_cache_is_constructor
    (find_path (__init__ flat5 1000) (0, 0, 0) (4, 4, 0)).2 flat5).
  apply reachable_find_path, reachable_init.
Defined.

Lemma dict_set_keys {K V : Type} `{EqDecision K} (d : dict.t K V) (k : K) (v : V) :
  NoDup d.*1 -> NoDup (dict.set d k v).*1 /\ forall k', k' ∈ (dict.set d k v).*1 -> k' = k \/ k' ∈ d.*1.
Proof.
  induction d as [|[k0 v0] d IH]; simpl.
  - intros _. split; [apply NoDup_singleton|]. intros k' ->%list_elem_of_singleton. by left.
  - intros [Hnotin Hnodup]%NoDup_cons. destruct (IH Hnodup) as [IHn IHk].
    case_decide as Hk; simpl.
    + split; [by apply NoDup_cons|]. intros k' Hin. by right.
    + split.
      * apply NoDup_cons. split; [|done]. intros [->|Hin]%IHk; done.
      * intros k' [->|Hin]%elem_of_cons; [right; apply list_elem_of_here|].
        destruct (IHk _ Hin); [by left|right; by apply list_elem_of_further].
Qed.

Lemma dict_get_keys {K V : Type} `{EqDecision K} (d : dict.t K V) (k : K) (v : V) :
  NoDup d.*1 -> (k, v) ∈ d -> dict.get d k = Some v.
Proof.
  induction d as [|[k0 v0] d IH]; simpl; [by intros _ ?%elem_of_nil|].
  intros [Hnotin Hnodup]%NoDup_cons [[= -> ->]|Hin]%elem_of_cons.
  - by rewrite decide_True.
  - rewrite decide_False; [by apply IH|]. intros ->. apply Hnotin.
    apply list_elem_of_fmap. by exists (k, v).
Qed.

(** The keys of the cache stay distinct. *)
Lemma reachable_keys self : reachable self -> NoDup (path_cache self).*1.
Proof.
  induction 1 as [w n|self start goal _ IH|self _ _|self w _ _]; try apply NoDup_nil_2.
  unfold find_path, find_path_with.
  destruct (dict.get _ _); [done|].
  destruct (_ || _); [done|]. destruct (_ || _); [done|].
  destruct (search _ _ _ _).2 as [[path|]|e|]; try done.
  unfold _cache_path. case_bool_decide; [|simpl; by apply dict_set_keys].
  destruct (path_cache self) as [|[oldest_key oldest] rest] eqn:Hcache; simpl;
    [by rewrite Hcache|].
  rewrite decide_True by done. simpl. apply dict_set_keys.
  by apply NoDup_cons in IH as [_ ?].
Qed.

(** X13.  For a pathfinder built through the public methods, the cache
    holds at most one path for a pair, and every entry in it is the one a
    lookup of its pair finds. *)
Theorem cache_keys_distinct self :
  reachable self ->
  NoDup (path_cache self).*1 /\
  forall start goal path,
    ((start, goal), path) ∈ path_cache self ->
    dict.get (path_cache self) (start, goal) = Some path /\
    find_path self start goal = (Returns (Some path), self).
Proof.
  intros Hnodup%reachable_keys. split; [done|]. intros start goal path Hin.
  pose proof (dict_get_keys _ _ _ Hnodup Hin) as Hget.
  split; [done|by apply find_path_cached].
Qed.

Lemma cache_keys_distinct_witness :
  NoDup (path_cache (find_path (__init__ flat5 1000) (0, 0, 0) (4, 4, 0)).2).*1.
Proof.
  apply (cache_keys_distinct (find_path (__init__ flat5 1000) (0, 0, 0) (4, 4, 0)).2).
  apply reachable_find_path, reachable_init.
Defined.

Lemma search_no_turn w max_iterations start goal :
  max_iterations <= 0 -> (search w max_iterations start goal).2 = Returns None.
Proof.
  intros Hcap. unfold search. by replace (Z.to_nat max_iterations) with 0%nat by lia.
Qed.

Lemma find_path_no_cap self start goal :
  max_iterations self <= 0 -> path_cache self = [] ->
  find_path self start goal = (Returns None, self).
Proof.
  intros Hcap Hempty. unfold find_path, find_path_with.
  rewrite Hempty. simpl. destruct (_ || _); [done|]. destruct (_ || _); [done|].
  by rewrite search_no_turn.
Qed.

Lemma find_path_max_iterations self start goal :
  max_iterations (find_path self start goal).2 = max_iterations self.
Proof.
  destruct (find_path_cases self start goal)
    as [(path & _ & ->)|[(_ & ->)|(path & _ & _ & _ & _ & _ & _ & _ & _ &
         [(self' & Hstore & ->)|(_ & ->)])]]; try done.
  by apply _cache_path_returns in Hstore as (_ & ? & _).
Qed.

Lemma reachable_no_cap self :
  reachable self -> max_iterations self <= 0 -> path_cache self = [].
Proof.
  induction 1 as [w n|self start goal _ IH|self _ _|self w _ _]; try done.
  rewrite find_path_max_iterations. intros Hcap.
  by rewrite find_path_no_cap; [apply IH| |apply IH].
Qed.

(** X14.  A pathfinder built with a cap of zero or less never finds a path,
    not even from a cell to itself: every call of [find_path] returns [None]
    and its cache stays empty for as long as it is used. *)
Theorem no_iterations_no_path self :
  reachable self -> max_iterations self <= 0 ->
  path_cache self = [] /\
  forall start goal, find_path self start goal = (Returns None, self).
Proof.
  intros Hreach Hcap. pose proof (reachable_no_cap self Hreach Hcap) as Hempty.
  split; [done|]. intros start goal. by apply find_path_no_cap.
Qed.

Lemma no_iterations_no_path_witness :
  find_path (__init__ flat5 0) (2, 2, 0) (2, 2, 0) = (Returns None, __init__ flat5 0).
Proof.
  apply (no_iterations_no_path (__init__ flat5 0)).
  - apply reachable_init.
  - simpl. lia.
Defined.

(** ** Where a dwarf may appear *)

Lemma first_some_None {A B : Type} (body : A -> option B) (l : list A) :
  first_some body l = None <-> Forall (fun a => body a = None) l.
Proof.
  induction l as [|a l IH]; simpl; [by split; [constructor|]|].
  destruct (body a) eqn:Ha.
  - split; [done|]. intros [Hnone _]%Forall_cons. congruence.
  - rewrite IH. split; [by constructor|]. by intros [_ ?]%Forall_cons.
Qed.

Lemma first_some_elem {A B : Type} (body : A -> option B) (l : list A) b :
  first_some body l = Some b -> exists a, a ∈ l /\ body a = Some b.
Proof.
  induction l as [|a l IH]; simpl; [done|]. destruct (body a) eqn:Ha.
  - intros [= ->]. exists a. split; [apply list_elem_of_here|done].
  - intros (a' & Hin & Hb)%IH. exists a'. split; [by apply list_elem_of_further|done].
Qed.

(** The first value found going up from [m]: nothing is found below it. *)
Lemma first_some_seqZ {B : Type} (body : Z -> option B) (m : Z) (k : nat) b :
  first_some body (seqZ m (Z.of_nat k)) = Some b ->
  exists r, m <= r < m + Z.of_nat k /\ body r = Some b /\
    forall r', m <= r' < r -> body r' = None.
Proof.
  revert m. induction k as [|k IH]; intros m; [done|].
  rewrite seqZ_cons by lia. simpl. destruct (body m) eqn:Hm.
  - intros [= ->]. exists m. split; [lia|]. split; [done|intros; lia].
  - replace (Z.pred (Z.of_nat (S k))) with (Z.of_nat k) by lia.
    intros (r & Hr & Hb & Hbelow)%IH. exists r. split; [lia|]. split; [done|].
    intros r' Hr'. destruct (decide (r' = m)) as [->|Hne]; [done|]. apply Hbelow. lia.
Qed.

(** One ring of [_find_spawn_location]: the two inner loops for a radius. *)
Lemma spawn_ring w x y z radius :
  0 <= radius ->
  let ring :=
    first_some (fun dx =>
      first_some (fun dy =>
        if bool_decide (Z.abs dx = radius) || bool_decide (Z.abs dy = radius) then
          if _is_suitable_spawn w (x + dx) (y + dy) z then Some (x + dx, y + dy, z)
          else None
        else None)
        (offsets radius))
      (offsets radius) in
  match ring with
  | Some c =>
      exists dx dy, c = (x + dx, y + dy, z) /\ Z.max (Z.abs dx) (Z.abs dy) = radius /\
        _is_suitable_spawn w (x + dx) (y + dy) z = true
  | None =>
      forall dx dy, Z.max (Z.abs dx) (Z.abs dy) = radius ->
        _is_suitable_spawn w (x + dx) (y + dy) z = false
  end.
Proof.
  intros Hradius ring.
  assert (forall d, d ∈ offsets radius <-> Z.abs d <= radius) as Hoffsets.
  { intros d. unfold offsets. rewrite elem_of_seqZ. lia. }
  destruct ring as [c|] eqn:Hring; unfold ring in Hring.
  - apply first_some_elem in Hring as (dx & Hdx%Hoffsets & Hinner).
    apply first_some_elem in Hinner as (dy & Hdy%Hoffsets & Hbody).
    destruct (_ || _) eqn:Hedge; [|done].
    destruct (_is_suitable_spawn w (x + dx) (y + dy) z) eqn:Hsuitable; [|done].
    injection Hbody as <-. exists dx, dy. split_and!; [done| |done].
    apply orb_prop in Hedge as [Hedge%bool_decide_eq_true|Hedge%bool_decide_eq_true]; lia.
  - intros dx dy Hmax.
    pose proof (proj1 (first_some_None _ _) Hring) as Hall.
    rewrite Forall_forall in Hall.
    assert (dx ∈ offsets radius) as Hdx by (apply Hoffsets; lia).
    assert (dy ∈ offsets radius) as Hdy by (apply Hoffsets; lia).
    pose proof (proj1 (first_some_None _ _) (Hall dx Hdx)) as Hinner.
    rewrite Forall_forall in Hinner. specialize (Hinner dy Hdy). simpl in Hinner.
    assert (bool_decide (Z.abs dx = radius) || bool_decide (Z.abs dy = radius) = true)
      as Hedge.
    { apply orb_true_iff. rewrite !bool_decide_eq_true. lia. }
    rewrite Hedge in Hinner. by destruct (_is_suitable_spawn w (x + dx) (y + dy) z).
Qed.

(** What [_find_spawn_location] gives. *)
Lemma _find_spawn_location_spec w x y z :
  match _find_spawn_location w x y z with
  | Some c =>
      exists dx dy, c = (x + dx, y + dy, z) /\
        Z.max (Z.abs dx) (Z.abs dy) <= 9 /\
        _is_suitable_spawn w (x + dx) (y + dy) z = true /\
        forall dx' dy', Z.max (Z.abs dx') (Z.abs dy') < Z.max (Z.abs dx) (Z.abs dy) ->
          _is_suitable_spawn w (x + dx') (y + dy') z = false
  | None =>
      forall dx dy, Z.max (Z.abs dx) (Z.abs dy) <= 9 ->
        _is_suitable_spawn w (x + dx) (y + dy) z = false
  end.
Proof.
  unfold _find_spawn_location.
  destruct (_is_suitable_spawn w x y z) eqn:Hcentre.
  { exists 0, 0. rewrite !Z.add_0_r. split_and!; [done|simpl; lia|done|simpl; lia]. }
  assert (forall dx dy, Z.max (Z.abs dx) (Z.abs dy) = 0 ->
    _is_suitable_spawn w (x + dx) (y + dy) z = false) as Hzero.
  { intros dx dy Hmax. replace dx with 0 by lia. replace dy with 0 by lia.
    by rewrite !Z.add_0_r. }
  set (ring := fun radius : Z => first_some _ (offsets radius)).
  change (10 - 1) with (Z.of_nat 9).
  destruct (first_some ring (seqZ 1 (Z.of_nat 9))) as [c|] eqn:Hrings.
  - apply first_some_seqZ in Hrings as (radius & Hradius & Hring & Hbelow).
    pose proof (spawn_ring w x y z radius) as Hspec. cbv zeta in Hspec.
    fold (ring radius) in Hspec. rewrite Hring in Hspec.
    destruct Hspec as (dx & dy & -> & Hmax & Hsuitable); [lia|].
    exists dx, dy. split_and!; [done|lia|done|]. intros dx' dy' Hless.
    destruct (decide (Z.max (Z.abs dx') (Z.abs dy') = 0)) as [Hnull|Hpos];
      [by apply Hzero|].
    pose proof (spawn_ring w x y z (Z.max (Z.abs dx') (Z.abs dy'))) as Hspec.
    cbv zeta in Hspec. fold (ring (Z.max (Z.abs dx') (Z.abs dy'))) in Hspec.
    rewrite Hbelow in Hspec by lia. apply Hspec; [lia|done].
  - intros dx dy Hmax.
    destruct (decide (Z.max (Z.abs dx) (Z.abs dy) = 0)) as [Hnull|Hpos];
      [by apply Hzero|].
    pose proof (proj1 (first_some_None _ _) Hrings) as Hall. rewrite Forall_forall in Hall.
    pose proof (spawn_ring w x y z (Z.max (Z.abs dx) (Z.abs dy))) as Hspec.
    cbv zeta in Hspec. fold (ring (Z.max (Z.abs dx) (Z.abs dy))) in Hspec.
    rewrite Hall in Hspec by (apply elem_of_seqZ; lia). apply Hspec; [lia|done].
Qed.

(** X15.  A location that [_find_spawn_location] returns is suitable for
    spawning: within bounds, on a tile that can be entered with a water
    level below 3; it is on the level asked for and at most 9 cells away
    along either axis. *)
Theorem _find_spawn_location_suitable w x y z x' y' z' :
  _find_spawn_location w x y z = Some (x', y', z') ->
  _is_suitable_spawn w x' y' z' = true /\
  WorldState.is_valid_coordinate w x' y' z' = true /\
  Tile.is_passable (WorldState.get_tile w x' y' z') = true /\
  Tile.water_level (WorldState.get_tile w x' y' z') < 3 /\
  z' = z /\ Z.abs (x' - x) <= 9 /\ Z.abs (y' - y) <= 9.
Proof.
  intros Hfound. pose proof (_find_spawn_location_spec w x y z) as Hspec.
  rewrite Hfound in Hspec. destruct Hspec as (dx & dy & [= -> -> ->] & Hmax & Hsuitable & _).
  split; [done|]. unfold _is_suitable_spawn in Hsuitable.
  destruct (WorldState.is_valid_coordinate w (x + dx) (y + dy) z); [|done].
  simpl in Hsuitable. apply andb_prop in Hsuitable as [Hpass Hwater%bool_decide_eq_true].
  split_and!; [done..|lia|lia].
Qed.

Lemma _find_spawn_location_suitable_witness :
  _is_suitable_spawn walled4 2 1 0 = true.
Proof.
  apply (_find_spawn_location_suitable walled4 3 2 0 2 1 0). reflexivity.
Defined.

(** X16.  A location that [_find_spawn_location] returns is a nearest one:
    no cell of the level that is fewer rings away from [(x, y)] (the larger
    of the two distances along the axes) is suitable. *)
Theorem _find_spawn_location_nearest w x y z x' y' z' x'' y'' :
  _find_spawn_location w x y z = Some (x', y', z') ->
  Z.max (Z.abs (x'' - x)) (Z.abs (y'' - y)) < Z.max (Z.abs (x' - x)) (Z.abs (y' - y)) ->
  _is_suitable_spawn w x'' y'' z = false.
Proof.
  intros Hfound Hless. pose proof (_find_spawn_location_spec w x y z) as Hspec.
  rewrite Hfound in Hspec. destruct Hspec as (dx & dy & [= -> -> ->] & _ & _ & Hnearest).
  replace x'' with (x + (x'' - x)) by lia. replace y'' with (y + (y'' - y)) by lia.
  apply Hnearest. by replace (x + dx - x) with dx in Hless by lia;
    replace (y + dy - y) with dy in Hless by lia.
Qed.

Lemma _find_spawn_location_nearest_witness :
  _is_suitable_spawn walled4 3 2 0 = false.
Proof.
  apply (_find_spawn_location_nearest walled4 3 2 0 2 1 0 3 2); [reflexivity|simpl; lia].
Defined.

(** X17.  [_find_spawn_location] returns [None] exactly when no cell of the
    level within 9 cells of [(x, y)] along both axes is suitable. *)
Theorem _find_spawn_location_None w x y z :
  _find_spawn_location w x y z = None <->
  forall x' y', Z.abs (x' - x) <= 9 -> Z.abs (y' - y) <= 9 ->
    _is_suitable_spawn w x' y' z = false.
Proof.
  pose proof (_find_spawn_location_spec w x y z) as Hspec. split.
  - intros Hnone x' y' Hx Hy. rewrite Hnone in Hspec.
    replace x' with (x + (x' - x)) by lia. replace y' with (y + (y' - y)) by lia.
    apply Hspec. lia.
  - intros Hnothing. destruct (_find_spawn_location w x y z) as [c|]; [|done].
    destruct Hspec as (dx & dy & _ & Hmax & Hsuitable & _).
    rewrite Hnothing in Hsuitable by lia. done.
Qed.

Lemma _find_spawn_location_None_witness :
  _is_suitable_spawn (WorldState.set_tile (WorldState.__init__ 1 1) 0 0 0 wall) 0 0 0 = false.
Proof.
  apply (proj1 (_find_spawn_location_None
    (WorldState.set_tile (WorldState.__init__ 1 1) 0 0 0 wall) 0 0 0)).
  - vm_compute. reflexivity.
  - simpl. lia.
  - simpl. lia.
Defined.

(** ** A dwarf following a path *)

Lemma update_step self target :
  0 <= path_index self ->
  current_path self !! Z.to_nat (path_index self) = Some target ->
  update self = Some {| dwarf_position := target;
                        current_path := current_path self;
                        path_index := path_index self + 1 |}.
Proof.
  intros Hindex Htarget. pose proof (lookup_lt_Some _ _ _ Htarget) as Hlen.
  unfold update, _follow_path, py_index.
  rewrite (bool_decide_false (current_path self = [])) by (intros Hnil; rewrite Hnil in Hlen; simpl in Hlen; lia).
  rewrite !(bool_decide_true (path_index self < _)) by lia. simpl.
  rewrite bool_decide_true by done. by rewrite Htarget.
Qed.

Lemma update_at_end self :
  Z.of_nat (length (current_path self)) <= path_index self -> update self = Some self.
Proof.
  intros Hend. unfold update.
  rewrite (bool_decide_false (path_index self < _)) by lia. by rewrite andb_false_r.
Qed.

(** [n] calls of [update], from an index that is not negative. *)
Lemma updates_spec n self :
  0 <= path_index self ->
  exists self',
    updates n self = Some self' /\
    current_path self' = current_path self /\
    path_index self' =
      Z.min (path_index self + Z.of_nat n)
            (Z.max (path_index self) (Z.of_nat (length (current_path self)))) /\
    (path_index self < path_index self' ->
     current_path self !! Z.to_nat (path_index self' - 1) = Some (dwarf_position self')) /\
    (path_index self' = path_index self -> dwarf_position self' = dwarf_position self).
Proof.
  revert self. induction n as [|n IH]; intros self Hindex.
  { exists self. simpl. split_and!; [done..|lia|intros; lia|done]. }
  cbn [updates].
  destruct (decide (path_index self < Z.of_nat (length (current_path self)))) as [Hin|Hout].
  - destruct (lookup_lt_is_Some_2 (current_path self) (Z.to_nat (path_index self)))
      as [target Htarget]; [lia|].
    rewrite (update_step self target) by done. simpl.
    destruct (IH {| dwarf_position := target; current_path := current_path self;
                    path_index := path_index self + 1 |})
      as (self' & Hrun & Hpath & Hidx & Hpos & Hsame); [simpl; lia|].
    simpl in *. exists self'. split_and!; [done..|lia| |intros; lia].
    intros _. destruct (decide (path_index self + 1 < path_index self')) as [Hmore|Hnot];
      [by apply Hpos|].
    assert (path_index self' = path_index self + 1) as Heq by lia.
    rewrite Heq, (Hsame Heq). by replace (path_index self + 1 - 1) with (path_index self) by lia.
  - rewrite update_at_end by lia. simpl.
    destruct (IH self Hindex) as (self' & Hrun & Hpath & Hidx & Hpos & Hsame).
    exists self'. split_and!; [done..|lia|intros; lia|intros Heq; apply Hsame; lia].
Qed.

(** X18.  A controller whose index is not negative takes any number of
    [update] calls without an IndexError.  They leave the path as it is,
    move the index forward by one a call until it reaches the end of the
    path and not further, and leave the dwarf on the last cell of the path
    that the index has passed, or where it was when the index has not
    moved. *)
Theorem updates_follow_path n self :
  0 <= path_index self ->
  exists self',
    updates n self = Some self' /\
    current_path self' = current_path self /\
    path_index self' =
      Z.min (path_index self + Z.of_nat n)
            (Z.max (path_index self) (Z.of_nat (length (current_path self)))) /\
    (path_index self < path_index self' ->
     current_path self !! Z.to_nat (path_index self' - 1) = Some (dwarf_position self')) /\
    (path_index self' = path_index self -> dwarf_position self' = dwarf_position self).
Proof. apply updates_spec. Qed.

Lemma updates_follow_path_witness :
  exists self',
    updates 2 (mkDwarfAI (0, 0, 0) [(0, 0, 0); (1, 1, 0); (2, 2, 0)] 0) = Some self' /\
    path_index self' = 2.
Proof.
  destruct (updates_follow_path 2 (mkDwarfAI (0, 0, 0) [(0, 0, 0); (1, 1, 0); (2, 2, 0)] 0))
    as (self' & Hrun & _ & Hindex & _); [simpl; lia|].
  exists self'. split; [exact Hrun | exact Hindex].
Defined.

(** X19.  When the shared pathfinder, built through the public methods,
    finds a path from the dwarf to the target, [_move_to] takes that path
    with the index at 0; as many [update] calls as the path has cells then
    bring the dwarf to the target, cell by cell along the path, and further
    calls leave it there. *)
Theorem dwarf_arrives self pathfinder target path :
  reachable pathfinder ->
  (find_path pathfinder (dwarf_position self) target).1 = Returns (Some path) ->
  exists moving arrived,
    _move_to self pathfinder target =
      (Returns moving, (find_path pathfinder (dwarf_position self) target).2) /\
    current_path moving = path /\ path_index moving = 0 /\
    dwarf_position moving = dwarf_position self /\
    (forall k cell, path !! k = Some cell ->
       exists there, updates (S k) moving = Some there /\ dwarf_position there = cell) /\
    updates (length path) moving = Some arrived /\
    dwarf_position arrived = target /\
    forall n, updates n arrived = Some arrived.
Proof.
  intros Hreach Hfound.
  assert (path <> [] /\ last path = Some target) as [Hcells Hlast].
  { destruct (find_path_found _ _ _ _ Hreach Hfound) as (_ & _ & Hsearch).
    destruct (search_returns (world_state pathfinder) (max_iterations pathfinder)
      (dwarf_position self) target) as [Hnone|(path' & Hsome & _ & Hlast)]; [congruence|].
    assert (path' = path) as -> by congruence. split; [by intros ->|done]. }
  set (moving := {| dwarf_position := dwarf_position self; current_path := path;
                    path_index := 0 |}).
  assert (_move_to self pathfinder target =
    (Returns moving, (find_path pathfinder (dwarf_position self) target).2)) as Hmove.
  { unfold _move_to.
    destruct (find_path pathfinder (dwarf_position self) target) as [r pathfinder'].
    simpl in Hfound. subst r. destruct path; [done|]. done. }
  destruct (updates_spec (length path) moving) as (arrived & Hrun & Hpath & Hidx & Hpos & _);
    [done|].
  simpl in Hpath, Hidx, Hpos.
  assert (path_index arrived = Z.of_nat (length path)) as Hend by lia.
  exists moving, arrived. split_and!; try done.
  - intros k cell Hcell. pose proof (lookup_lt_Some _ _ _ Hcell) as Hk.
    destruct (updates_spec (S k) moving) as (there & Hthere & _ & Hi & Hp & _); [done|].
    simpl in Hi, Hp. exists there. split; [done|].
    assert (path_index there = Z.of_nat (S k)) as Hat by lia.
    rewrite Hat in Hp. replace (Z.to_nat (Z.of_nat (S k) - 1)) with k in Hp by lia.
    specialize (Hp ltac:(lia)). congruence.
  - destruct path as [|c path']; [done|].
    rewrite Hend in Hpos. specialize (Hpos ltac:(simpl; lia)).
    rewrite last_lookup in Hlast.
    replace (Z.to_nat (Z.of_nat (length (c :: path')) - 1)) with (pred (length (c :: path')))
      in Hpos by (simpl; lia).
    congruence.
  - intros n. induction n as [|n IH]; [done|]. cbn [updates].
    rewrite update_at_end by (rewrite Hpath; lia). done.
Qed.

Lemma dwarf_arrives_witness :
  exists moving arrived,
    _move_to (mkDwarfAI (3, 3, 0) [] 0) (__init__ walled4 1000) (3, 0, 1) =
      (Returns moving, (find_path (__init__ walled4 1000) (3, 3, 0) (3, 0, 1)).2) /\
    updates 5 moving = Some arrived /\ dwarf_position arrived = (3, 0, 1).
Proof.
  destruct (dwarf_arrives (mkDwarfAI (3, 3, 0) [] 0) (__init__ walled4 1000) (3, 0, 1)
    [(3, 3, 0); (2, 2, 0); (2, 1, 0); (3, 0, 0); (3, 0, 1)])
    as (moving & arrived & Hmove & _ & _ & _ & _ & Hrun & Hpos & _).
  - apply reachable_init.
  - vm_compute. reflexivity.
  - exists moving, arrived. split; [exact Hmove | split; [exact Hrun | exact Hpos]].
Defined.

(** ** The fallback world *)

Lemma painted_equiv world world' (done done' : Coord -> Prop) :
  (forall c, done c <-> done' c) -> painted world world' done -> painted world world' done'.
Proof.
  intros Hsame (Hwf & Hsize & Hlevels & Hdone & Hrest & Hdry).
  split_and!; [done..| | |done].
  - intros x y z Hin. apply Hdone. by apply Hsame.
  - intros x y z Hout. apply Hrest. intros Hin. by apply Hout, Hsame.
Qed.

Lemma painted_nothing world :
  well_formed world ->
  (forall x y z, Tile.water_level (WorldState.get_tile world x y z) = 0) ->
  painted world world (fun _ => False).
Proof. intros Hwf Hdry. by split_and!. Qed.

(** One turn of the innermost loop. *)
Lemma paint_tile_painted world world' done position :
  painted world world' done ->
  painted world (paint_tile world' position) (fun c => done c \/ c = position).
Proof.
  destruct position as [[x y] z].
  intros (Hwf & Hsize & Hlevels & Hdone & Hrest & Hdry). unfold paint_tile.
  set (tile := {| Tile.material := _; Tile.water_level := _ |}).
  assert (tile = terrain_tile (WorldState.z_levels world) z) as Htile.
  { unfold tile, terrain_tile. by rewrite Hdry, Hlevels. }
  clearbody tile. subst tile.
  destruct (set_tile_spec world' x y z (terrain_tile (WorldState.z_levels world) z))
    as (Hother & _ & Hshape & Hnoop).
  destruct (set_tile_size world' x y z (terrain_tile (WorldState.z_levels world) z))
    as [Hsize' Hlevels'].
  assert (forall x' y' z', WorldState.is_valid_coordinate world' x' y' z' =
    WorldState.is_valid_coordinate world x' y' z') as Hvalid.
  { intros x' y' z'. unfold WorldState.is_valid_coordinate. by rewrite Hsize, Hlevels. }
  split_and!; [by apply Hshape|congruence|congruence|..].
  - intros x' y' z' Hin Hv.
    destruct (decide ((x', y', z') = (x, y, z))) as [[= -> -> ->]|Hne].
    + apply get_set_tile_eq; [done|]. by rewrite Hvalid.
    + rewrite Hother by done. destruct Hin as [Hin|Heq]; [by apply Hdone|done].
  - intros x' y' z' Hout. rewrite Hother; [|intros Heq; apply Hout; by right].
    apply Hrest. intros Hin. apply Hout. by left.
  - intros x' y' z'.
    destruct (decide ((x', y', z') = (x, y, z))) as [[= -> -> ->]|Hne];
      [|by rewrite Hother].
    destruct (WorldState.is_valid_coordinate world' x y z) eqn:Hv.
    + by rewrite get_set_tile_eq.
    + by rewrite Hnoop.
Qed.

(** The three loops, innermost first. *)
Lemma paint_levels world x y zs world' done :
  painted world world' done ->
  painted world (foldl (fun w z => paint_tile w (x, y, z)) world' zs)
    (fun c => done c \/ exists z, z ∈ zs /\ c = (x, y, z)).
Proof.
  revert world' done. induction zs as [|z zs IH]; intros world' done Hpainted; cbn [foldl].
  - eapply painted_equiv; [|done]. intros c. split; [by left|].
    intros [?|(z & ?%elem_of_nil & _)]; done.
  - eapply painted_equiv; [|by apply IH, paint_tile_painted]. intros c. simpl. split.
    + intros [[? | ->]|(z' & ? & ->)]; [by left|right..].
      * exists z. split; [apply list_elem_of_here|done].
      * exists z'. split; [by apply list_elem_of_further|done].
    + intros [?|(z' & [-> | ?]%elem_of_cons & ->)]; [by left; left|by left; right|].
      right. by exists z'.
Qed.

Lemma paint_columns world x ys world' done :
  painted world world' done ->
  painted world
    (foldl (fun w y => foldl (fun w z => paint_tile w (x, y, z)) w
                         (seqZ 0 (WorldState.z_levels w))) world' ys)
    (fun c => done c \/
       exists y z, y ∈ ys /\ z ∈ seqZ 0 (WorldState.z_levels world) /\ c = (x, y, z)).
Proof.
  revert world' done. induction ys as [|y ys IH]; intros world' done Hpainted; cbn [foldl].
  - eapply painted_equiv; [|done]. intros c. split; [by left|].
    intros [?|(y & z & ?%elem_of_nil & _)]; done.
  - assert (WorldState.z_levels world' = WorldState.z_levels world) as ->
      by apply Hpainted.
    eapply painted_equiv; [|by apply IH, paint_levels]. intros c. simpl. split.
    + intros [[?|(z & ? & ->)]|(y' & z & ? & ? & ->)]; [by left|right..].
      * exists y, z. split_and!; [apply list_elem_of_here|done..].
      * exists y', z. split_and!; [by apply list_elem_of_further|done..].
    + intros [?|(y' & z & [-> | ?]%elem_of_cons & ? & ->)]; [by left; left| |].
      * left. right. by exists z.
      * right. by exists y', z.
Qed.

Lemma paint_rows world xs world' done :
  painted world world' done ->
  painted world
    (foldl (fun w x =>
       foldl (fun w y => foldl (fun w z => paint_tile w (x, y, z)) w
                           (seqZ 0 (WorldState.z_levels w)))
             w (seqZ 0 (WorldState.size w))) world' xs)
    (fun c => done c \/
       exists x y z, x ∈ xs /\ y ∈ seqZ 0 (WorldState.size world) /\
         z ∈ seqZ 0 (WorldState.z_levels world) /\ c = (x, y, z)).
Proof.
  revert world' done. induction xs as [|x xs IH]; intros world' done Hpainted; cbn [foldl].
  - eapply painted_equiv; [|done]. intros c. split; [by left|].
    intros [?|(x & y & z & ?%elem_of_nil & _)]; done.
  - assert (WorldState.size world' = WorldState.size world) as -> by apply Hpainted.
    eapply painted_equiv; [|by apply IH, paint_columns]. intros c. simpl. split.
    + intros [[?|(y & z & ? & ? & ->)]|(x' & y & z & ? & ? & ? & ->)]; [by left|right..].
      * exists x, y, z. split_and!; [apply list_elem_of_here|done..].
      * exists x', y, z. split_and!; [by apply list_elem_of_further|done..].
    + intros [?|(x' & y & z & [-> | ?]%elem_of_cons & ? & ? & ->)]; [by left; left| |].
      * left. right. by exists y, z.
      * right. by exists x', y, z.
Qed.

Lemma _create_minimal_world_painted world_size z_levels :
  painted (WorldState.__init__ world_size z_levels)
          (_create_minimal_world world_size z_levels)
          (fun '(x, y, z) =>
             WorldState.is_valid_coordinate (WorldState.__init__ world_size z_levels) x y z
             = true).
Proof.
  pose proof (paint_rows (WorldState.__init__ world_size z_levels)
    (seqZ 0 world_size) (WorldState.__init__ world_size z_levels) (fun _ => False)) as Hrows.
  eapply painted_equiv; [|apply Hrows, painted_nothing].
  - intros [[x y] z]. rewrite is_valid_coordinate_true. simpl. split.
    + intros [[]|(x' & y' & z' & Hx%elem_of_seqZ & Hy%elem_of_seqZ & Hz%elem_of_seqZ & Heq)].
      simplify_eq. lia.
    + intros (Hx & Hy & Hz). right. exists x, y, z. rewrite !elem_of_seqZ.
      split_and!; [lia..|done].
  - apply well_formed_init.
  - intros x y z. unfold WorldState.get_tile.
    destruct (WorldState.is_valid_coordinate _ x y z); [|done]. simpl.
    destruct (replicate _ _ !! Z.to_nat x) as [row|] eqn:Hrow; [|done].
    apply lookup_replicate in Hrow as [-> _]. simpl.
    destruct (replicate _ _ !! Z.to_nat y) as [col|] eqn:Hcol; [|done].
    apply lookup_replicate in Hcol as [-> _]. simpl.
    destruct (replicate _ _ !! Z.to_nat z) as [tile|] eqn:Htile; [|done].
    by apply lookup_replicate in Htile as [-> _].
Qed.

(** X20.  The fallback world has the shape and the bounds of the
    constructor's world.  Within bounds its tile at level [z] is stone below
    a third of the levels, soil below two thirds, empty above, with no
    water; so every tile of it can be entered, stone and soil included. *)
Theorem _create_minimal_world_tiles world_size z_levels x y z :
  0 <= x < world_size -> 0 <= y < world_size -> 0 <= z < z_levels ->
  let world := _create_minimal_world world_size z_levels in
  well_formed world /\
  WorldState.size world = world_size /\ WorldState.z_levels world = z_levels /\
  WorldState.get_tile world x y z = terrain_tile z_levels z /\
  _is_passable world (x, y, z) = true.
Proof.
  intros Hx Hy Hz world.
  destruct (_create_minimal_world_painted world_size z_levels)
    as (Hwf & Hsize & Hlevels & Hdone & _ & _).
  assert (WorldState.get_tile world x y z = terrain_tile z_levels z) as Hget.
  { apply (Hdone x y z); apply is_valid_coordinate_true; simpl; lia. }
  split_and!; [done..|]. unfold _is_passable. fold world. rewrite Hget.
  unfold Tile.is_passable. simpl. by rewrite orb_true_r.
Qed.

Lemma _create_minimal_world_tiles_witness :
  WorldState.get_tile (_create_minimal_world 3 3) 1 2 0 = terrain_tile 3 0 /\
  _is_passable (_create_minimal_world 3 3) (1, 2, 0) = true.
Proof.
  destruct (_create_minimal_world_tiles 3 3 1 2 0) as (_ & _ & _ & Hget & Hpass); [lia..|].
  split; [exact Hget | exact Hpass].
Defined.

(** X21.  In the fallback world the surface found at any [(x, y)] within
    bounds is the top level of soil, the level just below two thirds of the
    levels; with a single level, which is empty, it is 0. *)
Theorem _create_minimal_world_surface world_size z_levels x y :
  0 <= x < world_size -> 0 <= y < world_size ->
  find_surface_level (_create_minimal_world world_size z_levels) x y =
    Z.max 0 (z_levels * 2 / 3 - 1).
Proof.
  intros Hx Hy.
  destruct (_create_minimal_world_painted world_size z_levels)
    as (_ & _ & Hlevels & Hdone & _ & _). simpl in Hlevels.
  assert (forall z, 0 <= z < z_levels ->
    Tile.material (WorldState.get_tile (_create_minimal_world world_size z_levels) x y z) =
      Constants.TILE_EMPTY <-> z_levels * 2 / 3 <= z) as Hempty.
  { intros z Hz. rewrite (Hdone x y z) by (apply is_valid_coordinate_true; simpl; lia).
    simpl. assert (z_levels / 3 <= z_levels * 2 / 3) by (apply Z.div_le_mono; lia).
    repeat case_bool_decide; unfold Constants.TILE_STONE, Constants.TILE_SOIL,
      Constants.TILE_EMPTY; split; intros; try done; lia. }
  pose proof (find_surface_loop_highest (_create_minimal_world world_size z_levels) x y
    (Z.to_nat (WorldState.z_levels (_create_minimal_world world_size z_levels))))
    as (Hrange & Habove & Hnone).
  fold (find_surface_level (_create_minimal_world world_size z_levels) x y) in *.
  rewrite Hlevels in *.
  set (r := find_surface_level (_create_minimal_world world_size z_levels) x y) in *.
  clearbody r.
  destruct (decide (z_levels <= 1)) as [Hflat|Htall].
  { assert (z_levels * 2 / 3 <= 0); [|lia].
    destruct (decide (z_levels <= 0)) as [Hneg|Hone].
    - apply Z.div_le_upper_bound; lia.
    - by replace z_levels with 1 by lia. }
  assert (1 <= z_levels * 2 / 3 < z_levels) as Htop.
  { split.
    - apply Z.div_le_lower_bound; lia.
    - apply Z.div_lt_upper_bound; lia. }
  destruct (decide (r < z_levels * 2 / 3 - 1)) as [Hlow|Hhigh].
  { assert (z_levels * 2 / 3 <= z_levels * 2 / 3 - 1); [|lia].
    apply Hempty; [lia|]. apply Habove. lia. }
  destruct (decide (z_levels * 2 / 3 <= r)) as [Hover|Hunder]; [|lia].
  assert (r = 0); [|lia]. apply Hnone. apply Hempty; lia.
Qed.

Lemma _create_minimal_world_surface_witness :
  find_surface_level (_create_minimal_world 3 6) 1 2 = Z.max 0 (6 * 2 / 3 - 1).
Proof. apply (_create_minimal_world_surface 3 6 1 2); lia. Defined.

(** X22.  A tile above the level [find_surface_level] returns is not solid
    and can be entered, whatever its water level: what is solid in a column
    lies at the surface level or below it. *)
Theorem no_solid_above_surface w x y z :
  find_surface_level w x y < z < WorldState.z_levels w ->
  is_solid (WorldState.get_tile w x y z) = false /\
  Tile.is_passable (WorldState.get_tile w x y z) = true.
Proof.
  intros Hz.
  destruct (find_surface_loop_highest w x y (Z.to_nat (WorldState.z_levels w)))
    as (_ & Habove & _).
  fold (find_surface_level w x y) in Habove.
  assert (Tile.material (WorldState.get_tile w x y z) = Constants.TILE_EMPTY) as Hempty
    by (apply Habove; lia).
  unfold is_solid, Tile.is_passable. rewrite Hempty. split; [done|].
  by rewrite bool_decide_eq_true_2.
Qed.

Lemma no_solid_above_surface_witness :
  is_solid (WorldState.get_tile walled4 3 2 1) = false /\
  Tile.is_passable (WorldState.get_tile walled4 3 2 1) = true.
Proof. apply (no_solid_above_surface walled4 3 2 1). vm_compute. split; reflexivity. Defined.
